(** * The immutable spatial search tree of [ezdxf.math.rtree]

    A shallow embedding of [src/ezdxf/math/rtree.py]: the node hierarchy
    ([LeafNode], [InnerNode]), the construction ([make_node], [box_split],
    [RTree.__init__]) and the queries ([contains], [nearest_neighbor],
    [points_in_sphere], [points_in_bbox]).

    Conventions of the embedding:
    - Python floats are idealised as real numbers ([R]); [float("inf")] is the
      extra value [INF] of [Float].  Rounding, overflow and underflow are not
      part of that model; where a statement is about them, the code is
      evaluated on IEEE binary64 numbers in the module [Binary64].
    - A Python call either returns, raises, or recurses without end; [result]
      records which.
    - Python lists are mutable objects: the construction runs in a store of
      list objects, so that the in-place [points.sort] of [box_split] is an
      update of one object and a slice or [list(...)] is a new object.
    - Node objects are values; where the code compares nodes by identity
      ([child is closest_child]) the embedding uses the position of the child
      in its parent's [children] tuple. *)

From Stdlib Require Import Reals Lra Lia ZArith List Permutation Sorted Bool PeanoNat.
From Stdlib Require Floats.
Import ListNotations.

(** ** Results of Python calls *)

Inductive exn : Set :=
| ValueError
| TypeError
| ZeroDivisionError
| AssertionError.

Inductive result (A : Type) : Type :=
| Ok (a : A)
| Raise (e : exn)
| OutOfFuel.

Arguments Ok {A} a.
Arguments Raise {A} e.
Arguments OutOfFuel {A}.

Definition rbind {A B : Type} (r : result A) (f : A -> result B) : result B :=
  match r with
  | Ok a => f a
  | Raise e => Raise e
  | OutOfFuel => OutOfFuel
  end.

(** ** Floats *)

Definition Rleb (a b : R) : bool := if Rle_dec a b then true else false.
Definition Rltb (a b : R) : bool := if Rlt_dec a b then true else false.
Definition Reqb (a b : R) : bool := if Req_dec_T a b then true else false.

(** A float that may be [INF = float("inf")]: the type of [nn_dist]. *)
Inductive Float : Type :=
| INF
| Fin (r : R).

(** [a < b] on floats. *)
Definition Float_ltb (a b : Float) : bool :=
  match a, b with
  | INF, _ => false
  | Fin _, INF => true
  | Fin r1, Fin r2 => Rltb r1 r2
  end.

(** ** Points *)

(** Modelled from the spec: the point type ([Vec3]; a [Vec2] is a point whose
    third coordinate is zero) is not part of [rtree.py].  The spec (sections 3
    and 6) gives it coordinate access, subtraction yielding a vector and a
    distance to another point; the distance is the Euclidean one. *)
Record Vec3 : Type := mkVec3 { x : R; y : R; z : R }.

Definition Vec3_sub (a b : Vec3) : Vec3 :=
  mkVec3 (x a - x b) (y a - y b) (z a - z b).

Definition Vec3_add (a b : Vec3) : Vec3 :=
  mkVec3 (x a + x b) (y a + y b) (z a + z b).

Definition Vec3_mul (a : Vec3) (s : R) : Vec3 :=
  mkVec3 (x a * s) (y a * s) (z a * s).

Definition magnitude (v : Vec3) : R :=
  sqrt (x v * x v + y v * y v + z v * z v).

Definition distance (a b : Vec3) : R := magnitude (Vec3_sub b a).

(** [v.xyz]: the coordinates as a tuple. *)
Definition xyz (v : Vec3) : list R := [x v; y v; z v].

(** [vec[dim]]; [dim] is an index into a 3-tuple (see [box_split]). *)
Definition Vec3_getitem (v : Vec3) (dim : nat) : R := nth dim (xyz v) 0%R.

(** ** Helpers of the Python runtime *)

(** [max(t)] of a non-empty tuple of floats. *)
Definition tuple_max (t : list R) : R :=
  match t with
  | [] => 0%R
  | a :: t' => fold_left Rmax t' a
  end.

(** [t.index(v)]: the first position holding a value equal to [v]. *)
Fixpoint tuple_index (v : R) (t : list R) : nat :=
  match t with
  | [] => O
  | a :: t' => if Reqb a v then O else S (tuple_index v t')
  end.

(** [list.sort(key=...)] is stable: an element is inserted before the first
    element whose key is strictly greater, and after those with an equal key
    that stood before it. *)
Fixpoint insert_by_key (key : Vec3 -> R) (v : Vec3) (l : list Vec3) : list Vec3 :=
  match l with
  | [] => [v]
  | w :: l' => if Rleb (key v) (key w) then v :: w :: l'
               else w :: insert_by_key key v l'
  end.

Fixpoint list_sort (key : Vec3 -> R) (l : list Vec3) : list Vec3 :=
  match l with
  | [] => []
  | v :: l' => insert_by_key key v (list_sort key l')
  end.

(** [l[i : j]] for [0 <= i]. *)
Definition slice {A : Type} (l : list A) (i j : nat) : list A :=
  firstn (j - i) (skipn i l).

(** [range(start, stop, step)] for a positive [step]; at most [fuel] items,
    and [stop] items are never exceeded when the range starts at 0. *)
Fixpoint range_up (fuel : nat) (start stop step : nat) : list nat :=
  match fuel with
  | O => []
  | S fuel' => if start <? stop
               then start :: range_up fuel' (start + step) stop step
               else []
  end.

(** [range(0, stop, step)] with [stop >= 0]: a zero step raises, a negative
    step gives the empty range. *)
Definition py_range (stop : nat) (step : Z) : result (list nat) :=
  if (step =? 0)%Z then Raise ValueError
  else if (step <? 0)%Z then Ok []
  else Ok (range_up stop 0 stop (Z.to_nat step)).

(** [math.ceil(n / m)] for integers: the least integer not below the
    quotient; the division raises when [m] is zero. *)
Definition ceil (n m : Z) : Z := (- ((- n) / m))%Z.

Definition ceil_div (n m : Z) : result Z :=
  if (m =? 0)%Z then Raise ZeroDivisionError
  else Ok (ceil n m).

(** [min(items)]: the first item is the running minimum; a later item replaces
    it when [item < minimum], and a comparison that raises ends the call. *)
Section PyMin.
Context {A : Type}.
Variable lt : A -> A -> result bool.

Fixpoint min_from (cur : A) (rest : list A) : result A :=
  match rest with
  | [] => Ok cur
  | item :: rest' =>
      match lt item cur with
      | Ok true => min_from item rest'
      | Ok false => min_from cur rest'
      | Raise e => Raise e
      | OutOfFuel => OutOfFuel
      end
  end.

Definition py_min (items : list A) : result A :=
  match items with
  | [] => Raise ValueError
  | first :: rest => min_from first rest
  end.
End PyMin.

(** [a < b] on tuples [(float, object)]: the first components decide unless
    they are equal; then equal second components make the tuples equal, and
    different ones are compared with the [<] of their type. *)
Definition tuple_lt {B : Type} (eq2 : B -> B -> bool) (lt2 : B -> B -> result bool)
    (a b : R * B) : result bool :=
  if Reqb (fst a) (fst b) then
    if eq2 (snd a) (snd b) then Ok false else lt2 (snd a) (snd b)
  else Ok (Rltb (fst a) (fst b)).

(** ** Bounding boxes *)

(** Modelled from the spec: the axis-aligned bounding box type ([BoundingBox])
    is not part of [rtree.py].  The spec (sections 3 and 6) gives it:
    construction from a point collection, [extend], a boundary-inclusive
    [inside] and [has_overlap], [center], [size], [grow] by a uniform margin in
    all directions and [copy].  A box without data is [None]; it contains no
    point and overlaps nothing, and its [center] and [size] are the zero
    vector (no node of a constructed tree has such a box, see
    [built_tight]). *)
Definition BoundingBox : Type := option (Vec3 * Vec3).

Definition Vec3_min (a b : Vec3) : Vec3 :=
  mkVec3 (Rmin (x a) (x b)) (Rmin (y a) (y b)) (Rmin (z a) (z b)).

Definition Vec3_max (a b : Vec3) : Vec3 :=
  mkVec3 (Rmax (x a) (x b)) (Rmax (y a) (y b)) (Rmax (z a) (z b)).

Definition extend1 (b : BoundingBox) (v : Vec3) : BoundingBox :=
  match b with
  | None => Some (v, v)
  | Some (lo, hi) => Some (Vec3_min lo v, Vec3_max hi v)
  end.

(** [box.extend(vertices)]. *)
Definition extend (b : BoundingBox) (vertices : list Vec3) : BoundingBox :=
  fold_left extend1 vertices b.

(** [BoundingBox(vertices)]. *)
Definition BoundingBox_init (vertices : list Vec3) : BoundingBox :=
  extend None vertices.

(** [[box.extmin, box.extmax]]: the corners of a box with data. *)
Definition corners (b : BoundingBox) : list Vec3 :=
  match b with
  | None => []
  | Some (lo, hi) => [lo; hi]
  end.

(** [box.inside(p)], boundary inclusive. *)
Definition inside (b : BoundingBox) (p : Vec3) : bool :=
  match b with
  | None => false
  | Some (lo, hi) =>
      Rleb (x lo) (x p) && Rleb (x p) (x hi) &&
      Rleb (y lo) (y p) && Rleb (y p) (y hi) &&
      Rleb (z lo) (z p) && Rleb (z p) (z hi)
  end.

(** [a.has_overlap(b)], touching boxes included. *)
Definition has_overlap (a b : BoundingBox) : bool :=
  match a, b with
  | Some (alo, ahi), Some (blo, bhi) =>
      Rleb (x alo) (x bhi) && Rleb (x blo) (x ahi) &&
      Rleb (y alo) (y bhi) && Rleb (y blo) (y ahi) &&
      Rleb (z alo) (z bhi) && Rleb (z blo) (z ahi)
  | _, _ => false
  end.

Definition zero_vec : Vec3 := mkVec3 0 0 0.

(** [box.size]. *)
Definition size (b : BoundingBox) : Vec3 :=
  match b with
  | None => zero_vec
  | Some (lo, hi) => Vec3_sub hi lo
  end.

(** [box.center]. *)
Definition center (b : BoundingBox) : Vec3 :=
  match b with
  | None => zero_vec
  | Some (lo, hi) => Vec3_add lo (Vec3_mul (Vec3_sub hi lo) (1 / 2))
  end.

(** [box.grow(value)]: in place in Python; here the grown value. *)
Definition grow (b : BoundingBox) (value : R) : BoundingBox :=
  match b with
  | None => None
  | Some (lo, hi) =>
      Some (Vec3_add lo (mkVec3 (- value) (- value) (- value)),
            Vec3_add hi (mkVec3 value value value))
  end.

(** ** The node hierarchy *)

#[local] Set Warnings "-register-all".

(** [Node] with its two subclasses; both carry the [bbox] slot.  The
    constructors are the raw objects, [LeafNode] and [InnerNode] below are the
    two [__init__] methods. *)
Inductive Node : Type :=
| Leaf (bbox : BoundingBox) (points : list Vec3)
| Inner (bbox : BoundingBox) (children : list Node).

Definition bbox (node : Node) : BoundingBox :=
  match node with
  | Leaf b _ => b
  | Inner b _ => b
  end.

(** [LeafNode.__init__]. *)
Definition LeafNode (points : list Vec3) : Node :=
  Leaf (BoundingBox_init points) points.

(** [InnerNode.__init__]: the box starts empty and is extended by the corners
    of every child's box. *)
Definition InnerNode (children : list Node) : Node :=
  Inner (fold_left (fun b child => extend b (corners (bbox child))) children None)
        children.

(** [__len__]. *)
Fixpoint len (node : Node) : nat :=
  match node with
  | Leaf _ points => length points
  | Inner _ children => list_sum (map len children)
  end.

(** ** The store of mutable objects *)

(** Objects live in a store and are named by their position in it. *)
Definition loc : Type := nat.
Definition store (A : Type) : Type := list A.

Definition read {A : Type} (d : A) (s : store A) (l : loc) : A := nth l s d.

Fixpoint write {A : Type} (s : store A) (l : loc) (v : A) : store A :=
  match s, l with
  | [], _ => []
  | _ :: s', O => v :: s'
  | a :: s', S l' => a :: write s' l' v
  end.

Definition alloc {A : Type} (s : store A) (v : A) : loc * store A :=
  (length s, s ++ [v]).

(** The store of Python [list] objects holding points, and computations that
    read and update it and may raise. *)
Definition heap : Type := store (list Vec3).

Definition M (A : Type) : Type := heap -> result A * heap.

Definition ret {A : Type} (a : A) : M A := fun h => (Ok a, h).

Definition lift {A : Type} (r : result A) : M A := fun h => (r, h).

Definition raise {A : Type} (e : exn) : M A := lift (Raise e).

Definition bind {A B : Type} (m : M A) (f : A -> M B) : M B :=
  fun h =>
    match m h with
    | (Ok a, h') => f a h'
    | (Raise e, h') => (Raise e, h')
    | (OutOfFuel, h') => (OutOfFuel, h')
    end.

Notation "v <- m ;; k" := (bind m (fun v => k))
  (at level 61, m at next level, right associativity).

(** The current contents of the list object [l]. *)
Definition get_list (l : loc) : M (list Vec3) :=
  fun h => (Ok (read [] h l), h).

(** In-place replacement of the contents of the list object [l]. *)
Definition set_list (l : loc) (v : list Vec3) : M unit :=
  fun h => (Ok tt, write h l v).

(** A new list object. *)
Definition new_list (v : list Vec3) : M loc :=
  fun h => let (l, h') := alloc h v in (Ok l, h').

(** [tuple(f(i) for i in items)]: the calls run in order, the first one that
    raises ends the loop. *)
Fixpoint mapM {A B : Type} (f : A -> M B) (items : list A) : M (list B) :=
  match items with
  | [] => ret []
  | i :: items' =>
      b <- f i ;;
      bs <- mapM f items' ;;
      ret (b :: bs)
  end.

(** ** Construction *)

(** [make_node]; [LeafNode(points)] copies the contents of the list into a
    tuple. *)
Definition make_node (points : loc) (max_size : Z)
    (split_strategy : loc -> Z -> M (list Node)) : M Node :=
  pts <- get_list points ;;
  if (Z.of_nat (length pts) >? max_size)%Z then
    children <- split_strategy points max_size ;;
    ret (InnerNode children)
  else ret (LeafNode pts).

(** [box_split]; it passes itself to [make_node] as the split strategy.
    [fuel] bounds the depth of the recursion; without fuel the call has not
    returned. *)
Fixpoint box_split (fuel : nat) (points : loc) (max_size : Z) : M (list Node) :=
  match fuel with
  | O => lift OutOfFuel
  | S fuel' =>
      pts <- get_list points ;;
      let n := length pts in
      let size_ := xyz (size (BoundingBox_init pts)) in
      let dim := tuple_index (tuple_max size_) size_ in
      _ <- set_list points (list_sort (fun vec => Vec3_getitem vec dim) pts) ;;
      k <- lift (ceil_div (Z.of_nat n) max_size) ;;
      starts <- lift (py_range n k) ;;
      mapM (fun i =>
              sorted <- get_list points ;;
              part <- new_list (slice sorted i (i + Z.to_nat k)) ;;
              make_node part max_size (box_split fuel'))
           starts
  end.

(** ** The facade *)

Record RTree : Type := mkRTree { _root : Node }.

(** [RTree.__init__]; [points] is the caller's collection, a list object of
    the store.  The depth of the recursion of [box_split] on [n] points is
    below [n] (see [construction_terminates]), so [n] is fuel enough. *)
Definition RTree_init (points : loc) (max_node_size : Z) : M RTree :=
  if (max_node_size <? 2)%Z then raise ValueError
  else
    pts <- get_list points ;;
    _points <- new_list pts ;;
    copied <- get_list _points ;;
    if (length copied =? 0)%nat then raise ValueError
    else
      root <- make_node _points max_node_size (box_split (length copied)) ;;
      ret (mkRTree root).

(** [RTree.__len__]. *)
Definition RTree_len (t : RTree) : nat := len (_root t).

(** ** Bounding boxes as objects *)

(** [box.copy()]: a new box object with the same corners. *)
Definition BoundingBox_copy (box : loc) (s : store BoundingBox)
    : loc * store BoundingBox :=
  alloc s (read None s box).

(** [box.grow(value)]: updates the box object in place. *)
Definition BoundingBox_grow (box : loc) (value : R) (s : store BoundingBox)
    : store BoundingBox :=
  write s box (grow (read None s box) value).

(** [grow_box] on box objects: the copy is grown, and returned. *)
Definition grow_box_object (box : loc) (dist : R) (s : store BoundingBox)
    : loc * store BoundingBox :=
  let (bbox_, s1) := BoundingBox_copy box s in
  (bbox_, BoundingBox_grow bbox_ dist s1).

(** ** Queries *)

(** [is_sphere_intersecting_bbox]. *)
Definition is_sphere_intersecting_bbox
    (centroid : Vec3) (radius : R) (center : Vec3) (size : Vec3) : bool :=
  let distance := Vec3_sub centroid center in
  let intersection_distance :=
    Vec3_add (Vec3_mul size (1 / 2)) (mkVec3 radius radius radius) in
  if Rltb (x intersection_distance) (Rabs (x distance)) then false
  else if Rltb (y intersection_distance) (Rabs (y distance)) then false
  else if Rltb (z intersection_distance) (Rabs (z distance)) then false
  else true.

(** [points_in_sphere]; the generator is the list of the points it yields, in
    order. *)
Fixpoint points_in_sphere (node : Node) (center_ : Vec3) (radius : R) : list Vec3 :=
  match node with
  | Leaf _ points =>
      filter (fun p => Rleb (distance center_ p) radius) points
  | Inner _ children =>
      flat_map
        (fun child =>
           if is_sphere_intersecting_bbox
                center_ radius (center (bbox child)) (size (bbox child))
           then points_in_sphere child center_ radius
           else [])
        children
  end.

(** [points_in_bbox]. *)
Fixpoint points_in_bbox (node : Node) (box : BoundingBox) : list Vec3 :=
  match node with
  | Leaf _ points => filter (fun p => inside box p) points
  | Inner _ children =>
      flat_map
        (fun child =>
           if has_overlap box (bbox child) then points_in_bbox child box else [])
        children
  end.

(** [grow_box]: a grown copy of [box]. *)
Definition grow_box (box : BoundingBox) (dist : R) : BoundingBox :=
  grow box dist.

(** [grow_box(box, nn_dist).inside(target)] for a float [nn_dist]: growing a
    box with data by [INF] moves every bound to infinity. *)
Definition inside_grown (box : BoundingBox) (nn_dist : Float) (target : Vec3) : bool :=
  match nn_dist with
  | Fin d => inside (grow_box box d) target
  | INF => match box with None => false | Some _ => true end
  end.

(** [enumerate(items)] from [i]. *)
Fixpoint enumerate_from {A : Type} (i : nat) (items : list A) : list (nat * A) :=
  match items with
  | [] => []
  | a :: items' => (i, a) :: enumerate_from (S i) items'
  end.

(** [find_closest_child]: [min] over the tuples [(distance, child)].  A node is
    named by its position in [children]; two distinct node objects are never
    equal and the class [Node] defines no [<], so the comparison of two nodes
    raises [TypeError]. *)
Definition node_lt (i j : nat) : result bool := Raise TypeError.

Definition find_closest_child (children : list Node) (point : Vec3) : result nat :=
  if (length children =? 0)%nat then Raise AssertionError
  else
    rbind
      (py_min (tuple_lt Nat.eqb node_lt)
         (map (fun ic => (distance point (center (bbox (snd ic))), fst ic))
              (enumerate_from 0 children)))
      (fun m => Ok (snd m)).

(** A method call on the child at position [i] of [children]; the position
    comes from [find_closest_child] and is below the number of children. *)
Fixpoint call_child {A : Type} (method : Node -> result A)
    (children : list Node) (i : nat) : result A :=
  match children, i with
  | [], _ => Raise AssertionError
  | c :: _, O => method c
  | _ :: cs, S i' => call_child method cs i'
  end.

(** The loop [for child in self.children] of [InnerNode._nearest_neighbor];
    [method child] is [child._nearest_neighbor] for the target, [i] the
    position of the first child of [children] in the whole tuple, and the
    child at position [closest_child] is skipped. *)
Fixpoint visit_children
    (method : Node -> option Vec3 -> Float -> result (option Vec3 * Float))
    (target : Vec3) (closest_child : nat)
    (children : list Node) (i : nat) (nn : option Vec3) (nn_dist : Float)
    : result (option Vec3 * Float) :=
  match children with
  | [] => Ok (nn, nn_dist)
  | child :: cs =>
      if (i =? closest_child)%nat
      then visit_children method target closest_child cs (S i) nn nn_dist
      else if inside_grown (bbox child) nn_dist target then
        match method child nn nn_dist with
        | Ok (point, distance) =>
            if Float_ltb distance nn_dist
            then visit_children method target closest_child cs (S i)
                                point distance
            else visit_children method target closest_child cs (S i)
                                nn nn_dist
        | Raise e => Raise e
        | OutOfFuel => OutOfFuel
        end
      else visit_children method target closest_child cs (S i) nn nn_dist
  end.

Section Queries.

(** The point type's [==] and [<], which [min] uses on the tuples
    [(distance, point)] of a leaf when two distances are equal, and its
    [isclose]: all three are defined outside [rtree.py]. *)
Variable point_eq : Vec3 -> Vec3 -> bool.
Variable point_lt : Vec3 -> Vec3 -> bool.
Variable isclose : Vec3 -> Vec3 -> bool.

(** [contains]. *)
Fixpoint contains (node : Node) (point : Vec3) : bool :=
  match node with
  | Leaf _ points => existsb (fun p => isclose point p) points
  | Inner _ children =>
      existsb (fun child => inside (bbox child) point && contains child point)
              children
  end.

(** [_nearest_neighbor]. *)
Fixpoint _nearest_neighbor (node : Node) (target : Vec3)
    (nn : option Vec3) (nn_dist : Float) {struct node}
    : result (option Vec3 * Float) :=
  match node with
  | Leaf _ points =>
      match py_min (tuple_lt point_eq (fun a b => Ok (point_lt a b)))
                   (map (fun p => (distance target p, p)) points) with
      | Ok (distance, point) =>
          if Float_ltb (Fin distance) nn_dist
          then Ok (Some point, Fin distance)
          else Ok (nn, nn_dist)
      | Raise e => Raise e
      | OutOfFuel => OutOfFuel
      end
  | Inner _ children =>
      match find_closest_child children target with
      | Ok closest_child =>
          match call_child
                  (fun child => _nearest_neighbor child target nn nn_dist)
                  children closest_child
          with
          | Ok (nn1, nn_dist1) =>
              visit_children
                (fun child => _nearest_neighbor child target)
                target closest_child children O nn1 nn_dist1
          | Raise e => Raise e
          | OutOfFuel => OutOfFuel
          end
      | Raise e => Raise e
      | OutOfFuel => OutOfFuel
      end
  end.

(** [Node.nearest_neighbor]. *)
Definition Node_nearest_neighbor (node : Node) (target : Vec3) : result Vec3 :=
  match _nearest_neighbor node target None INF with
  | Ok (Some nn, _) => Ok nn
  | Ok (None, _) => Raise AssertionError
  | Raise e => Raise e
  | OutOfFuel => OutOfFuel
  end.

(** [RTree.contains], [RTree.nearest_neighbor], [RTree.points_in_sphere]
    and [RTree.points_in_bbox] delegate to the root. *)
Definition RTree_contains (t : RTree) (point : Vec3) : bool :=
  contains (_root t) point.

Definition RTree_nearest_neighbor (t : RTree) (target : Vec3) : result Vec3 :=
  Node_nearest_neighbor (_root t) target.

End Queries.

Definition RTree_points_in_sphere (t : RTree) (center_ : Vec3) (radius : R)
    : list Vec3 :=
  points_in_sphere (_root t) center_ radius.

Definition RTree_points_in_bbox (t : RTree) (box : BoundingBox) : list Vec3 :=
  points_in_bbox (_root t) box.

(** ** What the statements below speak about *)

(** The points reachable under a node, in the order of the tree. *)
Fixpoint all_points (node : Node) : list Vec3 :=
  match node with
  | Leaf _ points => points
  | Inner _ children => flat_map all_points children
  end.

(** A node and all the nodes below it. *)
Fixpoint nodes (node : Node) : list Node :=
  node ::
  match node with
  | Leaf _ _ => []
  | Inner _ children => flat_map nodes children
  end.

(** [a] is below [b] on every axis. *)
Definition Vec3_le (a b : Vec3) : Prop :=
  (x a <= x b)%R /\ (y a <= y b)%R /\ (z a <= z b)%R.

(** [b] is the tight axis-aligned bound of [pts]: every point lies between the
    corners, and each of the six faces passes through one of the points. *)
Definition tight_bound (b : BoundingBox) (pts : list Vec3) : Prop :=
  match b with
  | None => pts = []
  | Some (lo, hi) =>
      (forall p, In p pts -> Vec3_le lo p /\ Vec3_le p hi) /\
      (exists p, In p pts /\ x p = x lo) /\ (exists p, In p pts /\ x p = x hi) /\
      (exists p, In p pts /\ y p = y lo) /\ (exists p, In p pts /\ y p = y hi) /\
      (exists p, In p pts /\ z p = z lo) /\ (exists p, In p pts /\ z p = z hi)
  end.

(** The union of two boxes. *)
Definition join (a b : BoundingBox) : BoundingBox :=
  match a, b with
  | None, _ => b
  | _, None => a
  | Some (alo, ahi), Some (blo, bhi) => Some (Vec3_min alo blo, Vec3_max ahi bhi)
  end.

(** The shape of the trees that the construction builds with node capacity
    [max_size]: leaves hold between one and [max_size] points, an inner node
    holds [n > max_size] points in [ceil (n / k)] children of at most
    [k = ceil (n / max_size)] points each, and every box is the one its
    [__init__] computes. *)
Inductive built (max_size : Z) : Node -> Prop :=
| built_leaf (points : list Vec3) :
    points <> [] ->
    (Z.of_nat (length points) <= max_size)%Z ->
    built max_size (LeafNode points)
| built_inner (children : list Node) :
    children <> [] ->
    Forall (built max_size) children ->
    (let n := Z.of_nat (length (flat_map all_points children)) in
     let k := ceil n max_size in
     max_size < n /\
     Z.of_nat (length children) = ceil n k /\
     Forall (fun c => Z.of_nat (length (all_points c)) <= k) children)%Z ->
    built max_size (InnerNode children).

(** The values computed by the construction, without the store: [make_node]
    and [box_split] on the contents of their list argument. *)
Fixpoint mapR {A B : Type} (f : A -> result B) (items : list A) : result (list B) :=
  match items with
  | [] => Ok []
  | i :: items' =>
      rbind (f i) (fun b => rbind (mapR f items') (fun bs => Ok (b :: bs)))
  end.

(** The value [make_node] returns for a list with contents [pts]. *)
Definition make_node_value (pts : list Vec3) (max_size : Z)
    (split : list Vec3 -> Z -> result (list Node)) : result Node :=
  if (Z.of_nat (length pts) >? max_size)%Z
  then rbind (split pts max_size) (fun children => Ok (InnerNode children))
  else Ok (LeafNode pts).

(** The axis [box_split] sorts along, and the sorted points. *)
Definition split_dim (pts : list Vec3) : nat :=
  let size_ := xyz (size (BoundingBox_init pts)) in
  tuple_index (tuple_max size_) size_.

(** The contents of the list after [points.sort]. *)
Definition split_sorted (pts : list Vec3) : list Vec3 :=
  list_sort (fun vec => Vec3_getitem vec (split_dim pts)) pts.

(** The value [box_split] returns for a list with contents [pts]. *)
Fixpoint box_split_value (fuel : nat) (pts : list Vec3) (max_size : Z)
    : result (list Node) :=
  match fuel with
  | O => OutOfFuel
  | S fuel' =>
      let n := length pts in
      rbind (ceil_div (Z.of_nat n) max_size) (fun k =>
      rbind (py_range n k) (fun starts =>
      mapR (fun i => make_node_value
                       (slice (split_sorted pts) i (i + Z.to_nat k))
                       max_size (box_split_value fuel'))
           starts))
  end.

(** A heap [h'] that holds every object of [h] unchanged, except possibly
    those a predicate lets go. *)
Definition preserves (except : loc -> Prop) (h h' : heap) : Prop :=
  (length h <= length h')%nat /\
  forall l, (l < length h)%nat -> ~ except l -> read [] h' l = read [] h l.

(** With [fuel], [make_node] builds a tree over any non-empty list of at most
    [fuel] points. *)
Definition builds (fuel : nat) (max_size : Z) : Prop :=
  forall pts, pts <> [] -> (length pts <= fuel)%nat ->
  exists t, make_node_value pts max_size (box_split_value fuel) = Ok t /\
            built max_size t /\ Permutation (all_points t) pts.

(** A computation on a list object refines a function of the list's contents:
    it returns what the function returns and updates no other object. *)
Definition refines {A : Type} (c : loc -> M A) (f : list Vec3 -> result A) : Prop :=
  forall l h, (l < length h)%nat ->
    fst (c l h) = f (read [] h l) /\ preserves (eq l) h (snd (c l h)).

(** One round of the loop of [box_split]: the slice becomes a new object. *)
Definition split_part (fuel : nat) (max_size : Z) (points : loc) (k i : nat)
    : M Node :=
  sorted <- get_list points ;;
  part <- new_list (slice sorted i (i + k)) ;;
  make_node part max_size (box_split fuel).

(** A box whose corners are in order. *)
Definition ordered (b : BoundingBox) : Prop :=
  match b with
  | None => True
  | Some (lo, hi) => Vec3_le lo hi
  end.

(** The sizes the construction keeps to: a leaf holds between one and
    [max_size] points, and each child of an inner node over [n] points holds
    at most [ceil (n / max_size)] points, which is fewer than [n]. *)
Definition bounded (max_size : Z) (node : Node) : Prop :=
  match node with
  | Leaf _ points => (1 <= Z.of_nat (length points) <= max_size)%Z
  | Inner _ children =>
      let n := Z.of_nat (len node) in
      Forall (fun c => (Z.of_nat (len c) <= ceil n max_size < n)%Z) children
  end.

(** The box a node carries is the one assigned by its [__init__]: the bound of
    the points of a leaf, the union of the children's boxes of an inner node. *)
Definition box_assigned (node : Node) : Prop :=
  match node with
  | Leaf b points => b = BoundingBox_init points
  | Inner b children => b = fold_left join (map bbox children) None
  end.

(** An instance of the point type's [isclose]: Python's [math.isclose] on each
    coordinate, with a relative tolerance of [1e-9] and an absolute tolerance
    of [1e-12]. *)
Definition math_isclose (a b : R) : bool :=
  Rleb (Rabs (a - b))
       (Rmax (1 / 1000000000 * Rmax (Rabs a) (Rabs b)) (1 / 1000000000000)).

Definition Vec3_isclose (a b : Vec3) : bool :=
  math_isclose (x a) (x b) && math_isclose (y a) (y b)
  && math_isclose (z a) (z b).

(** The points of the example scenario of the spec (section 8), used with
    [max_node_size = 2]. *)
Definition sample_points : list Vec3 :=
  [mkVec3 0 0 0; mkVec3 10 0 0; mkVec3 0 10 0; mkVec3 10 10 0; mkVec3 5 5 0].

(** A call that does not raise. *)
Definition returns {A : Type} (r : result A) : Prop :=
  match r with
  | Raise _ => False
  | _ => True
  end.

(** No two children of an inner node have box centres at the same distance
    from [target]. *)
Definition no_ties (target : Vec3) (node : Node) : Prop :=
  match node with
  | Leaf _ _ => True
  | Inner _ children =>
      NoDup (map (fun c => distance target (center (bbox c))) children)
  end.

(** The search state: no candidate and [INF], or a candidate with its distance
    to the target. *)
Definition nn_valid (target : Vec3) (nn : option Vec3) (nn_dist : Float)
    : Prop :=
  match nn, nn_dist with
  | None, INF => True
  | Some p, Fin d => d = distance target p
  | _, _ => False
  end.

(** The state after searching the points [cands] from the state
    [(nn, nn_dist)]: a candidate, from [cands] or the one before, that is no
    farther than any point of [cands] and than the candidate before. *)
Definition nn_post (target : Vec3) (cands : list Vec3)
    (nn : option Vec3) (nn_dist : Float) (r : option Vec3 * Float) : Prop :=
  exists p d,
    r = (Some p, Fin d) /\ d = distance target p /\
    (In p cands \/ (nn = Some p /\ nn_dist = Fin d)) /\
    (forall q, In q cands -> (d <= distance target q)%R) /\
    (forall d0, nn_dist = Fin d0 -> (d <= d0)%R).

(** A search over [cands] returns such a state, or raises [TypeError]. *)
Definition nn_spec (target : Vec3) (cands : list Vec3)
    (nn : option Vec3) (nn_dist : Float)
    (res : result (option Vec3 * Float)) : Prop :=
  match res with
  | Ok r => nn_post target cands nn nn_dist r
  | Raise e => e = TypeError
  | OutOfFuel => False
  end.

(** The input on which [nearest_neighbor] fails, and the tree built from it. *)
Definition tie_points : list Vec3 :=
  [mkVec3 0 0 0; mkVec3 2 0 0; mkVec3 4 0 0; mkVec3 6 0 0].

Definition tie_tree : RTree :=
  mkRTree (InnerNode [LeafNode [mkVec3 0 0 0; mkVec3 2 0 0];
                      LeafNode [mkVec3 4 0 0; mkVec3 6 0 0]]).

(** The number of levels of inner nodes above the deepest leaf: the depth of
    the recursion of a query that visits every node. *)
Fixpoint height (node : Node) : nat :=
  match node with
  | Leaf _ _ => O
  | Inner _ children => S (fold_right (fun c h => Nat.max (height c) h) O children)
  end.

(** ** The range query on binary64 floats *)

(** The definitions above idealise Python's floats as real numbers.
    [Binary64] repeats the construction and the sphere query on IEEE 754
    binary64 numbers, with the rounding of every operation, so that the code
    can be evaluated on concrete floats.  The point and box operations are,
    as above, modelled from the spec; the construction is given on the
    contents of the lists (the list objects play no part in a query). *)
Module Binary64.
Import PrimFloat.
#[local] Set Warnings "-inexact-float,-register-all".
#[local] Open Scope float_scope.

(** Modelled from the spec: the point type, as [Vec3] above, with binary64
    coordinates; every operation rounds as the float operation of Python
    does, and the distance is the square root of the sum of the squared
    differences. *)
Record Vec3 : Type := mkVec3 { x : float; y : float; z : float }.

Definition Vec3_sub (a b : Vec3) : Vec3 :=
  mkVec3 (x a - x b) (y a - y b) (z a - z b).

Definition Vec3_add (a b : Vec3) : Vec3 :=
  mkVec3 (x a + x b) (y a + y b) (z a + z b).

Definition Vec3_mul (a : Vec3) (s : float) : Vec3 :=
  mkVec3 (x a * s) (y a * s) (z a * s).

Definition magnitude (v : Vec3) : float :=
  sqrt (x v * x v + y v * y v + z v * z v).

Definition distance (a b : Vec3) : float := magnitude (Vec3_sub b a).

Definition xyz (v : Vec3) : list float := [x v; y v; z v].

Definition Vec3_getitem (v : Vec3) (dim : nat) : float := nth dim (xyz v) 0.

(** [min(a, b)] and [max(a, b)]: the first argument unless the second is
    strictly smaller (greater). *)
Definition fmin (a b : float) : float := if ltb b a then b else a.
Definition fmax (a b : float) : float := if ltb a b then b else a.

(** [max(t)] of a non-empty tuple, and [t.index(v)]. *)
Definition tuple_max (t : list float) : float :=
  match t with
  | [] => 0
  | a :: t' => fold_left fmax t' a
  end.

Fixpoint tuple_index (v : float) (t : list float) : nat :=
  match t with
  | [] => O
  | a :: t' => if eqb a v then O else S (tuple_index v t')
  end.

(** The stable [list.sort(key=...)]. *)
Fixpoint insert_by_key (key : Vec3 -> float) (v : Vec3) (l : list Vec3)
    : list Vec3 :=
  match l with
  | [] => [v]
  | w :: l' => if ltb (key w) (key v) then w :: insert_by_key key v l'
               else v :: w :: l'
  end.

Fixpoint list_sort (key : Vec3 -> float) (l : list Vec3) : list Vec3 :=
  match l with
  | [] => []
  | v :: l' => insert_by_key key v (list_sort key l')
  end.

(** Modelled from the spec: the bounding box type, as [BoundingBox] above;
    [center] is [extmin + (extmax - extmin) * 0.5] and [size] is
    [extmax - extmin], each rounded. *)
Definition BoundingBox : Type := option (Vec3 * Vec3).

Definition Vec3_min (a b : Vec3) : Vec3 :=
  mkVec3 (fmin (x a) (x b)) (fmin (y a) (y b)) (fmin (z a) (z b)).

Definition Vec3_max (a b : Vec3) : Vec3 :=
  mkVec3 (fmax (x a) (x b)) (fmax (y a) (y b)) (fmax (z a) (z b)).

Definition extend1 (b : BoundingBox) (v : Vec3) : BoundingBox :=
  match b with
  | None => Some (v, v)
  | Some (lo, hi) => Some (Vec3_min lo v, Vec3_max hi v)
  end.

Definition extend (b : BoundingBox) (vertices : list Vec3) : BoundingBox :=
  fold_left extend1 vertices b.

Definition BoundingBox_init (vertices : list Vec3) : BoundingBox :=
  extend None vertices.

Definition corners (b : BoundingBox) : list Vec3 :=
  match b with
  | None => []
  | Some (lo, hi) => [lo; hi]
  end.

Definition zero_vec : Vec3 := mkVec3 0 0 0.

Definition size (b : BoundingBox) : Vec3 :=
  match b with
  | None => zero_vec
  | Some (lo, hi) => Vec3_sub hi lo
  end.

Definition center (b : BoundingBox) : Vec3 :=
  match b with
  | None => zero_vec
  | Some (lo, hi) => Vec3_add lo (Vec3_mul (Vec3_sub hi lo) 0.5)
  end.

Inductive Node : Type :=
| Leaf (bbox : BoundingBox) (points : list Vec3)
| Inner (bbox : BoundingBox) (children : list Node).

Definition bbox (node : Node) : BoundingBox :=
  match node with
  | Leaf b _ => b
  | Inner b _ => b
  end.

Definition LeafNode (points : list Vec3) : Node :=
  Leaf (BoundingBox_init points) points.

Definition InnerNode (children : list Node) : Node :=
  Inner (fold_left (fun b child => extend b (corners (bbox child))) children None)
        children.

(** [make_node] and [box_split], on the contents of the list. *)
Definition make_node (pts : list Vec3) (max_size : Z)
    (split_strategy : list Vec3 -> Z -> result (list Node)) : result Node :=
  if (Z.of_nat (length pts) >? max_size)%Z
  then rbind (split_strategy pts max_size)
             (fun children => Ok (InnerNode children))
  else Ok (LeafNode pts).

Fixpoint box_split (fuel : nat) (pts : list Vec3) (max_size : Z)
    : result (list Node) :=
  match fuel with
  | O => OutOfFuel
  | S fuel' =>
      let n := length pts in
      let size_ := xyz (size (BoundingBox_init pts)) in
      let dim := tuple_index (tuple_max size_) size_ in
      let sorted := list_sort (fun vec => Vec3_getitem vec dim) pts in
      rbind (ceil_div (Z.of_nat n) max_size) (fun k =>
      rbind (py_range n k) (fun starts =>
      mapR (fun i => make_node (slice sorted i (i + Z.to_nat k))
                               max_size (box_split fuel'))
           starts))
  end.

Record RTree : Type := mkRTree { _root : Node }.

(** [RTree.__init__]. *)
Definition RTree_init (points : list Vec3) (max_node_size : Z) : result RTree :=
  if (max_node_size <? 2)%Z then Raise ValueError
  else if (length points =? 0)%nat then Raise ValueError
  else rbind (make_node points max_node_size (box_split (length points)))
             (fun root => Ok (mkRTree root)).

(** [is_sphere_intersecting_bbox]. *)
Definition is_sphere_intersecting_bbox
    (centroid : Vec3) (radius : float) (center : Vec3) (size : Vec3) : bool :=
  let distance := Vec3_sub centroid center in
  let intersection_distance :=
    Vec3_add (Vec3_mul size 0.5) (mkVec3 radius radius radius) in
  if ltb (x intersection_distance) (abs (x distance)) then false
  else if ltb (y intersection_distance) (abs (y distance)) then false
  else if ltb (z intersection_distance) (abs (z distance)) then false
  else true.

(** [points_in_sphere]. *)
Fixpoint points_in_sphere (node : Node) (center_ : Vec3) (radius : float)
    : list Vec3 :=
  match node with
  | Leaf _ points =>
      filter (fun p => leb (distance center_ p) radius) points
  | Inner _ children =>
      flat_map
        (fun child =>
           if is_sphere_intersecting_bbox
                center_ radius (center (bbox child)) (size (bbox child))
           then points_in_sphere child center_ radius
           else [])
        children
  end.

Definition RTree_points_in_sphere (t : RTree) (center_ : Vec3) (radius : float)
    : list Vec3 :=
  points_in_sphere (_root t) center_ radius.

(** The input on which the sphere query loses a point of the boundary: the
    points, the tree built from them with [max_node_size = 2], and the
    sphere. *)
Definition boundary_points : list Vec3 :=
  [mkVec3 0 0 0; mkVec3 0.1 0 0; mkVec3 100 0 0].

Definition boundary_tree : RTree :=
  mkRTree (InnerNode [LeafNode [mkVec3 0 0 0; mkVec3 0.1 0 0];
                      LeafNode [mkVec3 100 0 0]]).

Definition boundary_center : Vec3 := mkVec3 2.1 0 0.

Definition boundary_radius : float := 2.

Definition boundary_point : Vec3 := mkVec3 0.1 0 0.

End Binary64.

(** * Proofs *)

(** ** Comparisons of floats *)

Lemma Rleb_true (a b : R) : Rleb a b = true <-> (a <= b)%R.
Proof. unfold Rleb. destruct (Rle_dec a b); split; intros; try easy. Qed.

Lemma Rleb_false (a b : R) : Rleb a b = false <-> (b < a)%R.
Proof.
  unfold Rleb. destruct (Rle_dec a b); split; intros; try easy; lra.
Qed.

Lemma Rltb_true (a b : R) : Rltb a b = true <-> (a < b)%R.
Proof. unfold Rltb. destruct (Rlt_dec a b); split; intros; try easy. Qed.

Lemma Rltb_false (a b : R) : Rltb a b = false <-> (b <= a)%R.
Proof.
  unfold Rltb. destruct (Rlt_dec a b); split; intros; try easy; lra.
Qed.

Lemma Reqb_true (a b : R) : Reqb a b = true <-> a = b.
Proof. unfold Reqb. destruct (Req_dec_T a b); split; intros; try easy. Qed.

Lemma Reqb_false (a b : R) : Reqb a b = false <-> a <> b.
Proof. unfold Reqb. destruct (Req_dec_T a b); split; intros; try easy. Qed.

Lemma Reqb_refl (a : R) : Reqb a a = true.
Proof. now apply Reqb_true. Qed.

(** ** The store *)

Lemma length_write {A : Type} (s : store A) (l : loc) (v : A) :
  length (write s l v) = length s.
Proof.
  revert l; induction s as [|a s IH]; intros [|l]; simpl; auto.
Qed.

Lemma read_write_same {A : Type} (d : A) (s : store A) (l : loc) (v : A) :
  (l < length s)%nat -> read d (write s l v) l = v.
Proof.
  unfold read. revert l; induction s as [|a s IH]; intros [|l] H; simpl in *;
    try lia; auto.
  apply IH; lia.
Qed.

Lemma read_write_other {A : Type} (d : A) (s : store A) (l l' : loc) (v : A) :
  l <> l' -> read d (write s l v) l' = read d s l'.
Proof.
  unfold read. revert l l'; induction s as [|a s IH]; intros [|l] [|l'] H;
    simpl; auto; try easy.
Qed.

Lemma read_alloc_old {A : Type} (d : A) (s : store A) (v : A) (l : loc) :
  (l < length s)%nat -> read d (snd (alloc s v)) l = read d s l.
Proof. intros H. unfold read, alloc; simpl. now apply app_nth1. Qed.

Lemma read_alloc_new {A : Type} (d : A) (s : store A) (v : A) :
  read d (snd (alloc s v)) (fst (alloc s v)) = v.
Proof.
  unfold read, alloc; simpl. rewrite app_nth2 by lia.
  now rewrite Nat.sub_diag.
Qed.

(** ** Sorting *)

Lemma insert_by_key_perm (key : Vec3 -> R) (v : Vec3) (l : list Vec3) :
  Permutation (insert_by_key key v l) (v :: l).
Proof.
  induction l as [|w l IH]; simpl; auto.
  destruct (Rleb (key v) (key w)); auto.
  rewrite IH. apply perm_swap.
Qed.

Lemma list_sort_perm (key : Vec3 -> R) (l : list Vec3) :
  Permutation (list_sort key l) l.
Proof.
  induction l as [|v l IH]; simpl; auto.
  rewrite insert_by_key_perm. now constructor.
Qed.

Lemma list_sort_length (key : Vec3 -> R) (l : list Vec3) :
  length (list_sort key l) = length l.
Proof. apply Permutation_length, list_sort_perm. Qed.

Lemma insert_by_key_sorted (key : Vec3 -> R) (v : Vec3) (l : list Vec3) :
  StronglySorted (fun a b => (key a <= key b)%R) l ->
  StronglySorted (fun a b => (key a <= key b)%R) (insert_by_key key v l).
Proof.
  induction 1 as [|w l Hs IH Hw]; simpl.
  - repeat constructor.
  - destruct (Rleb (key v) (key w)) eqn:E.
    + apply Rleb_true in E. constructor; [now constructor|].
      constructor; auto.
      rewrite Forall_forall in *. intros u Hu. specialize (Hw u Hu). lra.
    + apply Rleb_false in E. constructor; auto.
      rewrite Forall_forall in *. intros u Hu.
      apply (Permutation_in _ (insert_by_key_perm key v l)) in Hu.
      destruct Hu as [<-|Hu]; [lra | auto].
Qed.

Lemma list_sort_sorted (key : Vec3 -> R) (l : list Vec3) :
  StronglySorted (fun a b => (key a <= key b)%R) (list_sort key l).
Proof.
  induction l as [|v l IH]; simpl; [constructor|].
  now apply insert_by_key_sorted.
Qed.

(** ** Ceiling division *)

Lemma ceil_spec (n m : Z) :
  (0 < m)%Z -> (m * (ceil n m - 1) < n <= m * ceil n m)%Z.
Proof.
  intros Hm. unfold ceil.
  pose proof (Z.div_mod (- n) m ltac:(lia)) as E.
  pose proof (Z.mod_pos_bound (- n) m Hm) as B.
  nia.
Qed.

Lemma ceil_unique (n m c : Z) :
  (0 < m)%Z -> (m * (c - 1) < n <= m * c)%Z -> c = ceil n m.
Proof.
  intros Hm H. pose proof (ceil_spec n m Hm) as S. nia.
Qed.

(** The group size is at least 2 and strictly below the number of points. *)
Lemma ceil_bounds (n m : Z) :
  (2 <= m)%Z -> (m < n)%Z -> (2 <= ceil n m < n)%Z.
Proof.
  intros Hm Hn. pose proof (ceil_spec n m ltac:(lia)) as S. nia.
Qed.

(** At most [max_size] groups. *)
Lemma ceil_ceil_le (n m : Z) :
  (2 <= m)%Z -> (m < n)%Z -> (2 <= ceil n (ceil n m) <= m)%Z.
Proof.
  intros Hm Hn.
  pose proof (ceil_bounds n m Hm Hn) as B.
  pose proof (ceil_spec n m ltac:(lia)) as S1.
  pose proof (ceil_spec n (ceil n m) ltac:(lia)) as S2.
  nia.
Qed.

(** ** Ranges and slices *)

Lemma range_up_In (fuel i n k j : nat) :
  In j (range_up fuel i n k) -> (i <= j < n)%nat.
Proof.
  revert i; induction fuel as [|fuel IH]; intros i; simpl; [easy|].
  destruct (i <? n)%nat eqn:E; [|easy].
  apply Nat.ltb_lt in E. intros [<-|H]; [lia|].
  apply IH in H. lia.
Qed.

Lemma range_up_count (fuel i n k : nat) :
  (1 <= k)%nat -> (n <= fuel + i)%nat ->
  let c := length (range_up fuel i n k) in
  (n <= i + k * c)%nat /\ (c = 0%nat \/ (i + k * (c - 1) < n)%nat).
Proof.
  intros Hk. revert i; induction fuel as [|fuel IH]; intros i Hf; simpl.
  - split; [lia | now left].
  - destruct (i <? n)%nat eqn:E; simpl.
    + apply Nat.ltb_lt in E.
      destruct (IH (i + k)%nat ltac:(lia)) as [H1 H2].
      split; [nia|]. right. rewrite Nat.sub_0_r.
      destruct H2 as [->|H2]; [lia|].
      destruct (length (range_up fuel (i + k) n k)) as [|c']; [lia|].
      simpl in H2. rewrite Nat.sub_0_r in H2. nia.
    + apply Nat.ltb_ge in E. split; [lia | now left].
Qed.

Lemma range_up_length (n k : nat) :
  (1 <= k)%nat ->
  Z.of_nat (length (range_up n 0 n k)) = ceil (Z.of_nat n) (Z.of_nat k).
Proof.
  intros Hk. apply ceil_unique; [lia|].
  destruct (range_up_count n 0 n k Hk ltac:(lia)) as [H1 H2].
  simpl in *. split; [|nia].
  destruct H2 as [H2|H2]; [rewrite H2 in *; simpl; nia|].
  destruct (length (range_up n 0 n k)) as [|c]; [lia|].
  simpl in H2. rewrite Nat.sub_0_r in H2. nia.
Qed.

Lemma range_up_nonempty (n k : nat) :
  (1 <= n)%nat -> range_up n 0 n k <> [].
Proof.
  intros Hn. destruct n as [|n]; [lia|]. simpl. easy.
Qed.

Lemma slice_length {A : Type} (l : list A) (j k : nat) :
  (j < length l)%nat -> (1 <= k)%nat ->
  (1 <= length (slice l j (j + k)) <= k)%nat.
Proof.
  intros Hj Hk. unfold slice.
  rewrite length_firstn, length_skipn. lia.
Qed.

Lemma concat_slices {A : Type} (l : list A) (fuel i k : nat) :
  (1 <= k)%nat -> (length l <= fuel + i)%nat ->
  concat (map (fun j => slice l j (j + k)) (range_up fuel i (length l) k))
  = skipn i l.
Proof.
  intros Hk. revert i; induction fuel as [|fuel IH]; intros i Hf; simpl.
  - symmetry. apply skipn_all2. lia.
  - destruct (i <? length l)%nat eqn:E; simpl.
    + rewrite IH by lia. unfold slice.
      replace (i + k - i)%nat with k by lia.
      replace (i + k)%nat with (k + i)%nat by lia.
      rewrite <- skipn_skipn. apply firstn_skipn.
    + apply Nat.ltb_ge in E. symmetry. now apply skipn_all2.
Qed.

(** ** Sequencing of results *)

Lemma mapR_Ok {A B : Type} (f : A -> result B) (P : A -> B -> Prop) (items : list A) :
  (forall i, In i items -> exists b, f i = Ok b /\ P i b) ->
  exists bs, mapR f items = Ok bs /\ Forall2 P items bs.
Proof.
  induction items as [|i items IH]; intros H; simpl.
  - exists []. split; auto.
  - destruct (H i (or_introl eq_refl)) as [b [Hb Pb]].
    destruct IH as [bs [Hbs Pbs]]; [intros; apply H; now right|].
    exists (b :: bs). rewrite Hb; simpl. rewrite Hbs; simpl. split; auto.
Qed.

Lemma flat_map_perm {A : Type} (g : A -> list Vec3) (items : list A)
    (children : list Node) :
  Forall2 (fun i c => Permutation (all_points c) (g i)) items children ->
  Permutation (flat_map all_points children) (concat (map g items)).
Proof.
  induction 1; simpl; auto using Permutation_app.
Qed.

(** ** The construction, on values *)

Lemma split_sorted_perm (pts : list Vec3) : Permutation (split_sorted pts) pts.
Proof. apply list_sort_perm. Qed.

Lemma split_sorted_length (pts : list Vec3) :
  length (split_sorted pts) = length pts.
Proof. apply list_sort_length. Qed.

Lemma box_split_value_step (fuel : nat) (max_size : Z) (pts : list Vec3) :
  (2 <= max_size)%Z ->
  builds fuel max_size ->
  (max_size < Z.of_nat (length pts))%Z ->
  (length pts <= S fuel)%nat ->
  let n := Z.of_nat (length pts) in
  let k := ceil n max_size in
  exists children,
    box_split_value (S fuel) pts max_size = Ok children /\
    children <> [] /\
    Forall (built max_size) children /\
    Z.of_nat (length children) = ceil n k /\
    Forall (fun c => (Z.of_nat (length (all_points c)) <= k)%Z) children /\
    Permutation (flat_map all_points children) pts /\
    Forall2 (fun i c => Permutation (all_points c)
                          (slice (split_sorted pts) i (i + Z.to_nat k)))
            (range_up (length pts) 0 (length pts) (Z.to_nat k)) children.
Proof.
  intros Hmax IH Hn Hf n k.
  pose proof (ceil_bounds n max_size Hmax Hn) as Hk. fold k in Hk.
  assert (E1 : ceil_div n max_size = Ok k).
  { unfold ceil_div. destruct (Z.eqb_spec max_size 0); [lia | reflexivity]. }
  assert (E2 : py_range (length pts) k
               = Ok (range_up (length pts) 0 (length pts) (Z.to_nat k))).
  { unfold py_range. destruct (Z.eqb_spec k 0); [lia|].
    destruct (Z.ltb_spec k 0); [lia | reflexivity]. }
  set (starts := range_up (length pts) 0 (length pts) (Z.to_nat k)) in *.
  destruct (mapR_Ok
              (fun i => make_node_value
                          (slice (split_sorted pts) i (i + Z.to_nat k))
                          max_size (box_split_value fuel))
              (fun i c => built max_size c /\
                          Permutation (all_points c)
                            (slice (split_sorted pts) i (i + Z.to_nat k)) /\
                          (length (all_points c) <= Z.to_nat k)%nat)
              starts) as [children [Hc HF]].
  { intros i Hi. apply range_up_In in Hi.
    pose proof (slice_length (split_sorted pts) i (Z.to_nat k)) as L.
    rewrite split_sorted_length in L. specialize (L ltac:(lia) ltac:(lia)).
    destruct (IH (slice (split_sorted pts) i (i + Z.to_nat k)))
      as [t [Et [Bt Pt]]].
    - intros E. rewrite E in L. simpl in L. lia.
    - subst n. lia.
    - exists t. repeat split; auto.
      rewrite (Permutation_length Pt). lia. }
  exists children. simpl. fold n. rewrite E1; simpl. rewrite E2; simpl.
  fold starts. rewrite Hc.
  assert (Hlen : length children = length starts).
  { symmetry. eapply Forall2_length; eauto. }
  assert (Hperm : Permutation (flat_map all_points children) pts).
  { rewrite (flat_map_perm
               (fun i => slice (split_sorted pts) i (i + Z.to_nat k)) starts).
    - subst starts. rewrite <- (split_sorted_length pts) at 1 2.
      rewrite concat_slices by (rewrite ?split_sorted_length; lia).
      simpl. apply split_sorted_perm.
    - eapply Forall2_impl; [|exact HF]. now intros ? ? [_ [? _]]. }
  repeat split; auto.
  - intros ->. simpl in Hlen. symmetry in Hlen.
    apply length_zero_iff_nil in Hlen.
    revert Hlen. apply range_up_nonempty. lia.
  - clear - HF. induction HF as [|? ? ? ? [H _]]; auto.
  - rewrite Hlen. subst starts. rewrite range_up_length by lia.
    f_equal. lia.
  - clear - HF Hk. induction HF as [|? ? ? ? [_ [_ H]]]; constructor; auto.
    lia.
  - eapply Forall2_impl; [|exact HF]. now intros ? ? [_ [? _]].
Qed.

Lemma make_node_value_builds (max_size : Z) :
  (2 <= max_size)%Z -> forall fuel, builds fuel max_size.
Proof.
  intros Hmax fuel. induction fuel as [|fuel IH]; intros pts Hne Hf.
  - destruct pts; [easy | simpl in Hf; lia].
  - unfold make_node_value.
    destruct (Z.gtb_spec (Z.of_nat (length pts)) max_size) as [Hn|Hn].
    + destruct (box_split_value_step fuel max_size pts Hmax IH ltac:(lia) Hf)
        as [children [E [Hc [HF [Hcount [Hsz [Hperm _]]]]]]].
      exists (InnerNode children). rewrite E; simpl.
      repeat split; auto.
      constructor; auto. cbv zeta.
      rewrite (Permutation_length Hperm). repeat split; auto; lia.
    + exists (LeafNode pts). repeat split; auto. now constructor.
Qed.


(** ** The construction, in the store *)

Lemma preserves_refl (P : loc -> Prop) (h : heap) : preserves P h h.
Proof. split; auto. Qed.

Lemma preserves_trans (P : loc -> Prop) (h1 h2 h3 : heap) :
  preserves P h1 h2 -> preserves P h2 h3 -> preserves P h1 h3.
Proof.
  intros [L1 H1] [L2 H2]. split; [lia|].
  intros l Hl Hp. rewrite H2 by (auto; lia). now apply H1.
Qed.

Lemma preserves_weaken (P Q : loc -> Prop) (h1 h2 : heap) :
  (forall l, P l -> Q l) -> preserves P h1 h2 -> preserves Q h1 h2.
Proof.
  intros PQ [L H]. split; auto.
Qed.

Lemma preserves_write (h : heap) (l : loc) (v : list Vec3) :
  preserves (eq l) h (write h l v).
Proof.
  split; [now rewrite length_write|].
  intros l' _ Hl'. apply read_write_other. intros ->. now apply Hl'.
Qed.

Lemma preserves_alloc (h h' : heap) (v : list Vec3) :
  preserves (eq (length h)) (h ++ [v]) h' -> preserves (fun _ => False) h h'.
Proof.
  intros [L H]. rewrite length_app in L; simpl in L. split; [lia|].
  intros l Hl _. rewrite H.
  - apply (read_alloc_old [] h v l Hl).
  - rewrite length_app; simpl; lia.
  - lia.
Qed.

Lemma make_node_refines (max_size : Z)
    (split : loc -> Z -> M (list Node))
    (split_value : list Vec3 -> Z -> result (list Node)) :
  refines (fun l => split l max_size) (fun pts => split_value pts max_size) ->
  refines (fun l => make_node l max_size split)
          (fun pts => make_node_value pts max_size split_value).
Proof.
  intros Hs l h Hl. unfold make_node, make_node_value, bind, get_list, ret.
  destruct (Z.of_nat (length (read [] h l)) >? max_size)%Z.
  - destruct (Hs l h Hl) as [E P].
    destruct (split l max_size h) as [[children|e|] h']; simpl in *;
      rewrite <- E; auto.
  - split; [reflexivity | apply preserves_refl].
Qed.

Lemma mapM_cons {A B : Type} (f : A -> M B) (i : A) (items : list A) (h : heap) :
  mapM f (i :: items) h =
  match f i h with
  | (Ok b, h1) =>
      match mapM f items h1 with
      | (Ok bs, h2) => (Ok (b :: bs), h2)
      | (Raise e, h2) => (Raise e, h2)
      | (OutOfFuel, h2) => (OutOfFuel, h2)
      end
  | (Raise e, h1) => (Raise e, h1)
  | (OutOfFuel, h1) => (OutOfFuel, h1)
  end.
Proof.
  simpl. unfold bind, ret. destruct (f i h) as [[b|e|] h1]; auto.
Qed.

Lemma split_part_run (fuel : nat) (max_size : Z) (points : loc) (k i : nat)
    (h : heap) :
  split_part fuel max_size points k i h =
  make_node (length h) max_size (box_split fuel)
            (h ++ [slice (read [] h points) i (i + k)]).
Proof. reflexivity. Qed.

Lemma box_split_loop (fuel : nat) (max_size : Z) (points : loc)
    (sorted : list Vec3) (k : nat) :
  refines (fun l => make_node l max_size (box_split fuel))
          (fun pts => make_node_value pts max_size (box_split_value fuel)) ->
  forall starts h,
    (points < length h)%nat -> read [] h points = sorted ->
    fst (mapM (split_part fuel max_size points k) starts h)
    = mapR (fun i => make_node_value (slice sorted i (i + k))
                       max_size (box_split_value fuel)) starts /\
    preserves (fun _ => False) h
              (snd (mapM (split_part fuel max_size points k) starts h)).
Proof.
  intros IH starts. induction starts as [|i starts IHs]; intros h Hp Hr.
  - simpl. split; [reflexivity | apply preserves_refl].
  - rewrite mapM_cons, split_part_run, Hr.
    destruct (IH (length h) (h ++ [slice sorted i (i + k)])) as [E P].
    { rewrite length_app; simpl; lia. }
    pose proof (read_alloc_new [] h (slice sorted i (i + k))) as Rn.
    unfold alloc in Rn; simpl in Rn. rewrite Rn in E. clear Rn.
    apply preserves_alloc in P.
    change (mapR ?f (i :: starts))
      with (rbind (f i) (fun b => rbind (mapR f starts) (fun bs => Ok (b :: bs)))).
    destruct (make_node (length h) max_size (box_split fuel)
                        (h ++ [slice sorted i (i + k)])) as [[b|e|] h1];
      simpl in E, P; rewrite <- E; simpl; auto.
    destruct (IHs h1) as [E2 P2].
    { destruct P; lia. }
    { destruct P as [_ P]. rewrite P; auto. }
    destruct (mapM _ starts h1) as [[bs|e|] h2]; simpl in E2, P2;
      rewrite <- E2; simpl; split; auto;
      apply (preserves_trans _ h h1 h2); auto.
Qed.

Lemma box_split_unfold (fuel : nat) (points : loc) (max_size : Z) (h : heap) :
  box_split (S fuel) points max_size h =
  let pts := read [] h points in
  let h1 := write h points (split_sorted pts) in
  match ceil_div (Z.of_nat (length pts)) max_size with
  | Ok k =>
      match py_range (length pts) k with
      | Ok starts => mapM (split_part fuel max_size points (Z.to_nat k)) starts h1
      | Raise e => (Raise e, h1)
      | OutOfFuel => (OutOfFuel, h1)
      end
  | Raise e => (Raise e, h1)
  | OutOfFuel => (OutOfFuel, h1)
  end.
Proof.
  simpl. unfold bind, get_list, set_list, lift.
  destruct (ceil_div _ max_size) as [k|e|]; auto.
Qed.

Lemma box_split_refines (max_size : Z) (fuel : nat) :
  refines (fun l => box_split fuel l max_size)
          (fun pts => box_split_value fuel pts max_size).
Proof.
  induction fuel as [|fuel IH]; intros l h Hl.
  - simpl. split; [reflexivity | apply preserves_refl].
  - rewrite box_split_unfold. cbv zeta.
    set (pts := read [] h l).
    set (h1 := write h l (split_sorted pts)).
    assert (P1 : preserves (eq l) h h1) by apply preserves_write.
    simpl box_split_value. fold pts.
    destruct (ceil_div (Z.of_nat (length pts)) max_size) as [k|e|]; simpl; auto.
    destruct (py_range (length pts) k) as [starts|e|]; simpl; auto.
    destruct (box_split_loop fuel max_size l (split_sorted pts) (Z.to_nat k)
                (make_node_refines max_size _ _ IH) starts h1) as [E P].
    { unfold h1. now rewrite length_write. }
    { unfold h1. now apply read_write_same. }
    split; [exact E|].
    apply (preserves_trans _ h h1); auto.
    eapply preserves_weaken; [|exact P]. easy.
Qed.

(** ** Induction over built trees *)

Lemma built_ind' (max_size : Z) (P : Node -> Prop) :
  (forall points, points <> [] ->
     (Z.of_nat (length points) <= max_size)%Z -> P (LeafNode points)) ->
  (forall children, children <> [] ->
     Forall (built max_size) children -> Forall P children ->
     (let n := Z.of_nat (length (flat_map all_points children)) in
      let k := ceil n max_size in
      max_size < n /\
      Z.of_nat (length children) = ceil n k /\
      Forall (fun c => Z.of_nat (length (all_points c)) <= k) children)%Z ->
     P (InnerNode children)) ->
  forall t, built max_size t -> P t.
Proof.
  intros HL HI. fix IH 2. intros t [points H1 H2 | children H1 H2 H3].
  - now apply HL.
  - apply HI; auto.
    clear H1 H3. revert children H2. fix IHc 2.
    intros children [|c cs Hc Hcs]; constructor.
    + now apply IH.
    + now apply IHc.
Qed.

(** ** Bounding boxes *)

Lemma Vec3_eq (a b : Vec3) : x a = x b -> y a = y b -> z a = z b -> a = b.
Proof. destruct a, b; simpl; intros; subst; reflexivity. Qed.

Lemma extend_app (b : BoundingBox) (l1 l2 : list Vec3) :
  extend b (l1 ++ l2) = extend (extend b l1) l2.
Proof. apply fold_left_app. Qed.

Lemma extend1_tight (b : BoundingBox) (acc : list Vec3) (v : Vec3) :
  tight_bound b acc -> tight_bound (extend1 b v) (acc ++ [v]).
Proof.
  destruct b as [[lo hi]|]; simpl.
  - intros [Hb [X1 [X2 [Y1 [Y2 [Z1 Z2]]]]]].
    assert (W : forall (f : Vec3 -> R) (m : R) (c : R),
              (exists p, In p acc /\ f p = m) -> (c = m \/ c = f v) ->
              exists p, In p (acc ++ [v]) /\ f p = c).
    { intros f m c [p [Hp E]] [->| ->].
      - exists p. split; [apply in_or_app; now left | exact E].
      - exists v. split; [apply in_or_app; right; now left | reflexivity]. }
    split; [|repeat split].
    + intros p Hp. apply in_app_or in Hp. destruct Hp as [Hp|[<-|[]]].
      * destruct (Hb p Hp) as [[? [? ?]] [? [? ?]]].
        unfold Vec3_le; simpl.
        repeat split;
          try (eapply Rle_trans; [apply Rmin_l | assumption]);
          try (eapply Rle_trans; [eassumption | apply Rmax_l]).
      * unfold Vec3_le; simpl.
        repeat split; try apply Rmin_r; try apply Rmax_r.
    + apply (W x (x lo)); auto. unfold Rmin. destruct (Rle_dec _ _); auto.
    + apply (W x (x hi)); auto. unfold Rmax. destruct (Rle_dec _ _); auto.
    + apply (W y (y lo)); auto. unfold Rmin. destruct (Rle_dec _ _); auto.
    + apply (W y (y hi)); auto. unfold Rmax. destruct (Rle_dec _ _); auto.
    + apply (W z (z lo)); auto. unfold Rmin. destruct (Rle_dec _ _); auto.
    + apply (W z (z hi)); auto. unfold Rmax. destruct (Rle_dec _ _); auto.
  - intros ->. simpl.
    split; [|repeat split; exists v; auto].
    intros p [<-|[]]. unfold Vec3_le. repeat split; apply Rle_refl.
Qed.

Lemma extend_tight (pts : list Vec3) :
  forall b acc, tight_bound b acc -> tight_bound (extend b pts) (acc ++ pts).
Proof.
  induction pts as [|v pts IH]; intros b acc H; simpl.
  - now rewrite app_nil_r.
  - replace (acc ++ v :: pts) with ((acc ++ [v]) ++ pts)
      by (now rewrite <- app_assoc).
    apply IH. now apply extend1_tight.
Qed.

Lemma BoundingBox_init_tight (pts : list Vec3) :
  tight_bound (BoundingBox_init pts) pts.
Proof. apply (extend_tight pts None []). reflexivity. Qed.

Lemma tight_bound_inside (b : BoundingBox) (pts : list Vec3) (p : Vec3) :
  tight_bound b pts -> In p pts -> inside b p = true.
Proof.
  destruct b as [[lo hi]|]; simpl.
  - intros [Hb _] Hp. destruct (Hb p Hp) as [[? [? ?]] [? [? ?]]].
    repeat (apply andb_true_intro; split); now apply Rleb_true.
  - now intros ->.
Qed.

Lemma join_None_r (b : BoundingBox) : join b None = b.
Proof. destruct b as [[? ?]|]; reflexivity. Qed.

Lemma join_assoc (a b c : BoundingBox) : join (join a b) c = join a (join b c).
Proof.
  destruct a as [[alo ahi]|], b as [[blo bhi]|], c as [[clo chi]|]; simpl; auto.
  f_equal. f_equal; apply Vec3_eq; simpl;
    auto using Rmin_assoc, Rmax_assoc.
Qed.

Lemma extend1_join (b : BoundingBox) (v : Vec3) :
  extend1 b v = join b (Some (v, v)).
Proof. destruct b as [[? ?]|]; reflexivity. Qed.

Lemma extend_join (l : list Vec3) :
  forall b, extend b l = join b (BoundingBox_init l).
Proof.
  induction l as [|v l IH]; intros b.
  - simpl. now rewrite join_None_r.
  - change (extend b (v :: l)) with (extend (extend1 b v) l).
    change (BoundingBox_init (v :: l)) with (extend (Some (v, v)) l).
    rewrite IH, (IH (Some (v, v))), extend1_join. apply join_assoc.
Qed.

Lemma tight_bound_ordered (b : BoundingBox) (pts : list Vec3) :
  tight_bound b pts -> ordered b.
Proof.
  destruct b as [[lo hi]|]; simpl; auto.
  intros [Hb [[p [Hp _]] _]]. destruct (Hb p Hp) as [[? [? ?]] [? [? ?]]].
  unfold Vec3_le. repeat split; eapply Rle_trans; eauto.
Qed.

Lemma extend_corners (b c : BoundingBox) :
  ordered c -> extend b (corners c) = join b c.
Proof.
  destruct c as [[lo hi]|]; simpl.
  - intros [Hx [Hy Hz]]. rewrite !extend1_join, join_assoc. f_equal.
    simpl. f_equal. f_equal; apply Vec3_eq; simpl;
      auto using Rmin_left, Rmax_right.
  - intros _. now rewrite join_None_r.
Qed.

(** The box [InnerNode.__init__] computes from boxes in order is their union. *)
Lemma InnerNode_bbox_join (children : list Node) :
  Forall (fun c => ordered (bbox c)) children ->
  forall b,
    fold_left (fun b child => extend b (corners (bbox child))) children b
    = fold_left join (map bbox children) b.
Proof.
  induction 1 as [|c cs Hc _ IH]; intros b; simpl; auto.
  rewrite extend_corners by assumption. apply IH.
Qed.

Lemma fold_join_extend (children : list Node) :
  Forall (fun c => bbox c = BoundingBox_init (all_points c)) children ->
  forall b,
    fold_left join (map bbox children) b
    = extend b (flat_map all_points children).
Proof.
  induction 1 as [|c cs Hc _ IH]; intros b; simpl; auto.
  rewrite extend_app, IH, Hc, <- extend_join. reflexivity.
Qed.

Lemma built_bbox (max_size : Z) (t : Node) :
  built max_size t -> bbox t = BoundingBox_init (all_points t).
Proof.
  induction 1 as [points _ _ | children _ _ IH _] using built_ind'.
  - reflexivity.
  - simpl. rewrite InnerNode_bbox_join.
    + now apply fold_join_extend.
    + eapply Forall_impl; [|exact IH]. intros c Hc. rewrite Hc.
      eapply tight_bound_ordered, BoundingBox_init_tight.
Qed.

Lemma built_tight (max_size : Z) (t : Node) :
  built max_size t -> tight_bound (bbox t) (all_points t).
Proof.
  intros H. rewrite (built_bbox max_size t H). apply BoundingBox_init_tight.
Qed.

Lemma built_nonempty (max_size : Z) (t : Node) :
  built max_size t -> all_points t <> [].
Proof.
  induction 1 as [points H _ | children Hne _ IH _] using built_ind'; auto.
  simpl. destruct children as [|c cs]; [easy|].
  simpl. inversion IH as [|? ? Hc _]; subst.
  destruct (all_points c); [easy | discriminate].
Qed.

(** ** Induction over nodes *)

Lemma Node_ind' (P : Node -> Prop) :
  (forall b points, P (Leaf b points)) ->
  (forall b children, Forall P children -> P (Inner b children)) ->
  forall node, P node.
Proof.
  intros HL HI. fix IH 1. intros [b points | b children].
  - apply HL.
  - apply HI. induction children as [|c cs IHc]; constructor.
    + apply IH.
    + apply IHc.
Qed.

Lemma built_nodes (max_size : Z) (t : Node) :
  built max_size t -> Forall (built max_size) (nodes t).
Proof.
  induction 1 as [points H1 H2 | children H1 H2 IH H3] using built_ind'.
  - constructor; [now constructor | constructor].
  - simpl. constructor; [now constructor|].
    clear H1 H3. induction IH as [|c cs Hc _ IHc]; simpl; [constructor|].
    inversion H2; subst. apply Forall_app. split; auto.
Qed.

(** ** Lists *)

Lemma filter_flat_map {A B : Type} (f : B -> bool) (g : A -> list B) (l : list A) :
  filter f (flat_map g l) = flat_map (fun a => filter f (g a)) l.
Proof.
  induction l as [|a l IH]; simpl; auto.
  now rewrite filter_app, IH.
Qed.

Lemma flat_map_ext_Forall {A B : Type} (g1 g2 : A -> list B) (l : list A) :
  Forall (fun a => g1 a = g2 a) l -> flat_map g1 l = flat_map g2 l.
Proof.
  induction 1 as [|a l Ha _ IH]; simpl; auto. now rewrite Ha, IH.
Qed.

Lemma filter_none {A : Type} (f : A -> bool) (l : list A) :
  (forall a, In a l -> f a = false) -> filter f l = [].
Proof.
  induction l as [|a l IH]; intros H; simpl; auto.
  rewrite (H a (or_introl eq_refl)). apply IH. intros; apply H; now right.
Qed.

Lemma Forall_and {A : Type} (P Q : A -> Prop) (l : list A) :
  Forall P l -> Forall Q l -> Forall (fun a => P a /\ Q a) l.
Proof.
  induction 1; intros HQ; inversion HQ; subst; constructor; auto.
Qed.

(** ** Size *)

Lemma len_all_points (node : Node) : len node = length (all_points node).
Proof.
  induction node as [b points | b children IH] using Node_ind'; simpl; auto.
  induction IH as [|c cs Hc _ IHc]; simpl; auto.
  rewrite length_app. now rewrite Hc, IHc.
Qed.

(** ** Distances *)

Lemma Rabs_le_norm (a b c : R) : (Rabs a <= sqrt (a * a + b * b + c * c))%R.
Proof.
  rewrite <- sqrt_Rsqr_abs. apply sqrt_le_1_alt. unfold Rsqr. nra.
Qed.

Lemma distance_axes (a b : Vec3) :
  (Rabs (x b - x a) <= distance a b /\
   Rabs (y b - y a) <= distance a b /\
   Rabs (z b - z a) <= distance a b)%R.
Proof.
  unfold distance, magnitude, Vec3_sub; simpl. repeat split.
  - apply Rabs_le_norm.
  - replace ((x b - x a) * (x b - x a) + (y b - y a) * (y b - y a)
             + (z b - z a) * (z b - z a))%R
      with ((y b - y a) * (y b - y a) + (x b - x a) * (x b - x a)
            + (z b - z a) * (z b - z a))%R by ring.
    apply Rabs_le_norm.
  - replace ((x b - x a) * (x b - x a) + (y b - y a) * (y b - y a)
             + (z b - z a) * (z b - z a))%R
      with ((z b - z a) * (z b - z a) + (x b - x a) * (x b - x a)
            + (y b - y a) * (y b - y a))%R by ring.
    apply Rabs_le_norm.
Qed.

Lemma Rabs_bounds (a b : R) : (Rabs a <= b)%R -> (- b <= a <= b)%R.
Proof. unfold Rabs. destruct (Rcase_abs a); lra. Qed.

Lemma inside_bounds (lo hi p : Vec3) :
  inside (Some (lo, hi)) p = true <-> Vec3_le lo p /\ Vec3_le p hi.
Proof.
  unfold inside, Vec3_le. rewrite !andb_true_iff, !Rleb_true. tauto.
Qed.

(** ** The sphere test prunes no box that holds a point of the sphere *)

Lemma sphere_test_complete (c : Vec3) (r : R) (b : BoundingBox) (p : Vec3) :
  inside b p = true -> (distance c p <= r)%R ->
  is_sphere_intersecting_bbox c r (center b) (size b) = true.
Proof.
  destruct b as [[lo hi]|]; [|discriminate].
  intros Hin Hd. apply inside_bounds in Hin.
  destruct Hin as [[? [? ?]] [? [? ?]]].
  destruct (distance_axes c p) as [Hx [Hy Hz]].
  unfold is_sphere_intersecting_bbox, center, size, Vec3_add, Vec3_mul,
    Vec3_sub; simpl.
  assert (A : forall a q l u : R,
            (Rabs (q - a) <= distance c p)%R -> (l <= q)%R -> (q <= u)%R ->
            Rltb ((u - l) * (1 / 2) + r) (Rabs (a - (l + (u - l) * (1 / 2))))
            = false).
  { intros a q l u Ha Hl Hu. apply Rltb_false.
    apply Rabs_le. apply Rabs_bounds in Ha. lra. }
  rewrite (A (x c) (x p)), (A (y c) (y p)), (A (z c) (z p)); auto.
Qed.

Lemma points_in_sphere_built (max_size : Z) (t : Node) (c : Vec3) (r : R) :
  built max_size t ->
  points_in_sphere t c r
  = filter (fun p => Rleb (distance c p) r) (all_points t).
Proof.
  induction 1 as [points _ _ | children _ HB IH _] using built_ind'.
  - reflexivity.
  - simpl. rewrite filter_flat_map. apply flat_map_ext_Forall.
    eapply Forall_impl; [|exact (Forall_and _ _ _ HB IH)].
    intros child [Hb Hc]; simpl in *.
    destruct (is_sphere_intersecting_bbox _ _ _ _) eqn:E; auto.
    symmetry. apply filter_none. intros p Hp.
    destruct (Rleb (distance c p) r) eqn:D; auto.
    apply Rleb_true in D.
    rewrite (sphere_test_complete c r (bbox child) p) in E; auto.
    eapply tight_bound_inside; eauto using built_tight.
Qed.

(** ** The overlap test prunes no box that holds a point of the query box *)

Lemma overlap_test_complete (q b : BoundingBox) (p : Vec3) :
  inside b p = true -> inside q p = true -> has_overlap q b = true.
Proof.
  destruct b as [[lo hi]|], q as [[qlo qhi]|]; try discriminate.
  intros H1 H2. apply inside_bounds in H1, H2.
  destruct H1 as [[? [? ?]] [? [? ?]]], H2 as [[? [? ?]] [? [? ?]]].
  unfold has_overlap. rewrite !andb_true_iff, !Rleb_true.
  repeat split; eapply Rle_trans; eauto.
Qed.

Lemma points_in_bbox_built (max_size : Z) (t : Node) (q : BoundingBox) :
  built max_size t ->
  points_in_bbox t q = filter (fun p => inside q p) (all_points t).
Proof.
  induction 1 as [points _ _ | children _ HB IH _] using built_ind'.
  - reflexivity.
  - simpl. rewrite filter_flat_map. apply flat_map_ext_Forall.
    eapply Forall_impl; [|exact (Forall_and _ _ _ HB IH)].
    intros child [Hb Hc]; simpl in *.
    destruct (has_overlap q (bbox child)) eqn:E; auto.
    symmetry. apply filter_none. intros p Hp.
    destruct (inside q p) eqn:D; auto.
    rewrite (overlap_test_complete q (bbox child) p) in E; auto.
    eapply tight_bound_inside; eauto using built_tight.
Qed.

(** ** Containment *)

Section Contains.
Variable isclose : Vec3 -> Vec3 -> bool.

Lemma contains_built (max_size : Z) (t : Node) (p : Vec3) :
  (forall v, isclose v v = true) ->
  built max_size t -> In p (all_points t) -> contains isclose t p = true.
Proof.
  intros Hrefl.
  induction 1 as [points _ _ | children _ HB IH _] using built_ind';
    intros Hp; simpl in *.
  - apply existsb_exists. exists p. auto.
  - apply in_flat_map in Hp. destruct Hp as [child [Hc Hp]].
    apply existsb_exists. exists child. split; auto.
    rewrite Forall_forall in HB, IH.
    apply andb_true_intro. split; [|now apply IH].
    eapply tight_bound_inside; eauto using built_tight.
Qed.

Lemma contains_close (node : Node) (q : Vec3) :
  contains isclose node q = true ->
  exists p, In p (all_points node) /\ isclose q p = true.
Proof.
  induction node as [b points | b children IH] using Node_ind'; simpl.
  - intros H. apply existsb_exists in H. exact H.
  - intros H. apply existsb_exists in H. destruct H as [child [Hc H]].
    apply andb_true_iff in H. destruct H as [_ H].
    rewrite Forall_forall in IH. destruct (IH child Hc H) as [p [Hp E]].
    exists p. split; auto. apply in_flat_map. eauto.
Qed.
End Contains.

(** ** The constructor *)

Lemma RTree_init_unfold (points : loc) (max_node_size : Z) (h : heap) :
  RTree_init points max_node_size h =
  if (max_node_size <? 2)%Z then (Raise ValueError, h)
  else
    let pts := read [] h points in
    let h1 := h ++ [pts] in
    if (length pts =? 0)%nat then (Raise ValueError, h1)
    else
      match make_node (length h) max_node_size (box_split (length pts)) h1 with
      | (Ok root, h2) => (Ok (mkRTree root), h2)
      | (Raise e, h2) => (Raise e, h2)
      | (OutOfFuel, h2) => (OutOfFuel, h2)
      end.
Proof.
  unfold RTree_init. destruct (max_node_size <? 2)%Z; [reflexivity|].
  unfold bind at 1. unfold get_list at 1.
  unfold bind at 1. unfold new_list at 1. unfold alloc.
  unfold bind at 1. unfold get_list at 1.
  pose proof (read_alloc_new [] h (read [] h points)) as E.
  unfold alloc in E; simpl in E. rewrite E. cbv zeta.
  destruct (length (read [] h points) =? 0)%nat; [reflexivity|].
  unfold bind, ret.
  destruct (make_node _ _ _ _) as [[root|e|] h2]; reflexivity.
Qed.

Lemma make_node_copy (max_node_size : Z) (fuel : nat) (h : heap)
    (pts : list Vec3) :
  fst (make_node (length h) max_node_size (box_split fuel) (h ++ [pts]))
  = make_node_value pts max_node_size (box_split_value fuel) /\
  preserves (fun _ => False) h
    (snd (make_node (length h) max_node_size (box_split fuel) (h ++ [pts]))).
Proof.
  destruct (make_node_refines max_node_size _ _
              (box_split_refines max_node_size fuel)
              (length h) (h ++ [pts])) as [E P].
  { rewrite length_app; simpl; lia. }
  pose proof (read_alloc_new [] h pts) as Rn.
  unfold alloc in Rn; simpl in Rn. rewrite Rn in E.
  split; [exact E | now apply preserves_alloc in P].
Qed.

Lemma RTree_init_built (points : loc) (max_node_size : Z) (h : heap) :
  read [] h points <> [] -> (2 <= max_node_size)%Z ->
  exists t, fst (RTree_init points max_node_size h) = Ok t /\
            built max_node_size (_root t) /\
            Permutation (all_points (_root t)) (read [] h points).
Proof.
  intros Hne Hmax. rewrite RTree_init_unfold.
  destruct (Z.ltb_spec max_node_size 2); [lia|]. cbv zeta.
  destruct (Nat.eqb_spec (length (read [] h points)) 0) as [E|_].
  { apply length_zero_iff_nil in E. contradiction. }
  destruct (make_node_copy max_node_size (length (read [] h points)) h
              (read [] h points)) as [E _].
  destruct (make_node_value_builds max_node_size Hmax
              (length (read [] h points)) (read [] h points) Hne (le_n _))
    as [root [Er [Hb Hp]]].
  rewrite Er in E.
  destruct (make_node _ _ _ _) as [[root'|e|] h2]; simpl in E; try discriminate.
  injection E as ->. exists (mkRTree root). auto.
Qed.

Lemma RTree_init_preserves (points : loc) (max_node_size : Z) (h : heap) :
  preserves (fun _ => False) h (snd (RTree_init points max_node_size h)).
Proof.
  rewrite RTree_init_unfold.
  destruct (max_node_size <? 2)%Z; [apply preserves_refl|]. cbv zeta.
  assert (P0 : preserves (fun _ => False) h (h ++ [read [] h points])).
  { split; [rewrite length_app; lia|].
    intros l Hl _. apply (read_alloc_old [] h _ l Hl). }
  destruct (length (read [] h points) =? 0)%nat; [exact P0|].
  destruct (make_node_copy max_node_size (length (read [] h points)) h
              (read [] h points)) as [_ P].
  destruct (make_node _ _ _ _) as [[root|e|] h2]; exact P.
Qed.

Lemma Permutation_filter' {A : Type} (f : A -> bool) (l l' : list A) :
  Permutation l l' -> Permutation (filter f l) (filter f l').
Proof.
  induction 1 as [|a l l' _ IH|a b l|l1 l2 l3 _ IH1 _ IH2]; simpl; auto.
  - destruct (f a); auto.
  - destruct (f a), (f b); auto. apply perm_swap.
  - now rewrite IH1.
Qed.

Lemma distance_sym (a b : Vec3) : distance a b = distance b a.
Proof.
  unfold distance, magnitude, Vec3_sub; simpl. f_equal. ring.
Qed.

Lemma read_nonempty_lt (h : heap) (l : loc) :
  read [] h l <> [] -> (l < length h)%nat.
Proof.
  intros H. destruct (Nat.lt_ge_cases l (length h)) as [|Hge]; auto.
  exfalso. apply H. unfold read. now apply nth_overflow.
Qed.

Lemma tuple_index_max (a b c : R) :
  let t := [a; b; c] in
  (tuple_index (tuple_max t) t < 3)%nat /\
  nth (tuple_index (tuple_max t) t) t 0%R = tuple_max t /\
  (a <= tuple_max t /\ b <= tuple_max t /\ c <= tuple_max t)%R.
Proof.
  simpl.
  assert (M : (a <= Rmax (Rmax a b) c /\ b <= Rmax (Rmax a b) c
               /\ c <= Rmax (Rmax a b) c)%R).
  { pose proof (Rmax_l a b). pose proof (Rmax_r a b).
    pose proof (Rmax_l (Rmax a b) c). pose proof (Rmax_r (Rmax a b) c).
    repeat split; lra. }
  destruct (Reqb a _) eqn:Ea; [apply Reqb_true in Ea; simpl; auto|].
  destruct (Reqb b _) eqn:Eb; [apply Reqb_true in Eb; simpl; auto|].
  destruct (Reqb c _) eqn:Ec; [apply Reqb_true in Ec; simpl; auto|].
  exfalso. apply Reqb_false in Ea, Eb, Ec.
  revert Ea Eb Ec. unfold Rmax. repeat destruct (Rle_dec _ _); lra.
Qed.

(** What [box_split] returns for more than [max_size] points: the groups are
    the consecutive slices of length [k] of the sorted list. *)
Lemma box_split_groups (points : loc) (max_size : Z) (h : heap) (fuel : nat) :
  let pts := read [] h points in
  let n := Z.of_nat (length pts) in
  let k := ceil n max_size in
  (2 <= max_size)%Z -> (max_size < n)%Z -> (length pts <= fuel)%nat ->
  exists children groups,
    fst (box_split fuel points max_size h) = Ok children /\
    fst (make_node points max_size (box_split fuel) h) = Ok (InnerNode children) /\
    Z.of_nat (length children) = ceil n k /\
    concat groups = split_sorted pts /\
    Forall (fun g => 1 <= Z.of_nat (length g) <= k)%Z groups /\
    Forall2 (fun g c => Permutation (all_points c) g) groups children.
Proof.
  intros pts n k Hmax Hn Hf.
  assert (Hl : (points < length h)%nat).
  { apply read_nonempty_lt. fold pts. intros E.
    subst n. rewrite E in Hn. simpl in Hn. lia. }
  destruct fuel as [|fuel]; [subst n; lia|].
  destruct (box_split_value_step fuel max_size pts Hmax
              (make_node_value_builds max_size Hmax fuel) Hn Hf)
    as [children [E [_ [_ [Hcount [_ [_ HF]]]]]]].
  fold n k in Hcount, HF.
  pose proof (ceil_bounds n max_size Hmax Hn) as Hk. fold k in Hk.
  exists children,
    (map (fun i => slice (split_sorted pts) i (i + Z.to_nat k))
         (range_up (length pts) 0 (length pts) (Z.to_nat k))).
  destruct (box_split_refines max_size (S fuel) points h Hl) as [E1 _].
  destruct (make_node_refines max_size _ _
              (box_split_refines max_size (S fuel)) points h Hl) as [E2 _].
  fold pts in E1, E2. rewrite E in E1. unfold make_node_value in E2.
  destruct (Z.gtb_spec (Z.of_nat (length pts)) max_size); [|subst n; lia].
  rewrite E in E2. simpl in E2.
  repeat split; auto.
  - rewrite <- (split_sorted_length pts) at 1 2.
    rewrite concat_slices by (rewrite ?split_sorted_length; lia).
    reflexivity.
  - apply Forall_forall. intros g Hg. apply in_map_iff in Hg.
    destruct Hg as [i [<- Hi]]. apply range_up_In in Hi.
    pose proof (slice_length (split_sorted pts) i (Z.to_nat k)) as L.
    rewrite split_sorted_length in L. lia.
  - clear - HF. induction HF; simpl; constructor; auto.
Qed.

(** ** Nearest neighbour: what the search returns when it returns *)

Lemma point_min (point_eq point_lt : Vec3 -> Vec3 -> bool)
    (rest : list (R * Vec3)) :
  forall cur,
  exists m,
    min_from (tuple_lt point_eq (fun a b => Ok (point_lt a b))) cur rest = Ok m
    /\ In m (cur :: rest)
    /\ forall a, In a (cur :: rest) -> (fst m <= fst a)%R.
Proof.
  induction rest as [|item rest IH]; intros cur; simpl.
  - exists cur. repeat split; auto. intros a [<-|[]]. apply Rle_refl.
  - assert (L : exists b,
              tuple_lt point_eq (fun a b => Ok (point_lt a b)) item cur = Ok b
              /\ (b = true -> (fst item <= fst cur)%R)
              /\ (b = false -> (fst cur <= fst item)%R)).
    { unfold tuple_lt. destruct (Reqb (fst item) (fst cur)) eqn:E.
      - apply Reqb_true in E.
        destruct (point_eq (snd item) (snd cur));
          eexists; (split; [reflexivity|]); split; intros _; lra.
      - eexists; split; [reflexivity|].
        destruct (Rltb (fst item) (fst cur)) eqn:L.
        + apply Rltb_true in L. split; [intros _; lra | discriminate].
        + apply Rltb_false in L. split; [discriminate | intros _; lra]. }
    destruct L as [b [-> [Ht Hf]]].
    destruct b.
    + destruct (IH item) as [m [E [Hin Hmin]]]. exists m.
      split; [exact E|]. split.
      * destruct Hin as [<-|Hin]; auto.
      * intros a [<-|[<-|Ha]].
        -- eapply Rle_trans; [apply (Hmin item); now left | now apply Ht].
        -- apply Hmin. now left.
        -- apply Hmin. now right.
    + destruct (IH cur) as [m [E [Hin Hmin]]]. exists m.
      split; [exact E|]. split.
      * destruct Hin as [<-|Hin]; auto.
      * intros a [<-|[<-|Ha]].
        -- apply Hmin. now left.
        -- eapply Rle_trans; [apply (Hmin cur); now left | now apply Hf].
        -- apply Hmin. now right.
Qed.

Lemma leaf_nearest (point_eq point_lt : Vec3 -> Vec3 -> bool) (target : Vec3)
    (b : BoundingBox) (points : list Vec3)
    (nn : option Vec3) (nn_dist : Float) :
  points <> [] -> nn_valid target nn nn_dist ->
  nn_spec target points nn nn_dist
    (_nearest_neighbor point_eq point_lt (Leaf b points) target nn nn_dist).
Proof.
  intros Hne Hv. cbn [_nearest_neighbor].
  destruct points as [|p0 points]; [easy|]. cbn [map py_min].
  destruct (point_min point_eq point_lt (map (fun p => (distance target p, p)) points)
              (distance target p0, p0)) as [[dm pm] [-> [Hin Hmin]]].
  assert (Hm : dm = distance target pm /\ In pm (p0 :: points)).
  { destruct Hin as [[= <- <-]|Hin]; [split; simpl; auto|].
    apply in_map_iff in Hin. destruct Hin as [p [[= <- <-] Hp]].
    split; simpl; auto. }
  destruct Hm as [Ed Hp].
  assert (Hall : forall q, In q (p0 :: points) -> (dm <= distance target q)%R).
  { intros q Hq.
    apply (Hmin (distance target q, q)).
    destruct Hq as [<-|Hq]; [now left|]. right.
    apply in_map_iff. eauto. }
  destruct (Float_ltb (Fin dm) nn_dist) eqn:L; cbn [nn_spec].
  - exists pm, dm.
    split; [reflexivity|]. split; [exact Ed|]. split; [now left|].
    split; [exact Hall|].
    intros d0 ->. simpl in L. apply Rltb_true in L. lra.
  - destruct nn as [p|], nn_dist as [|d]; simpl in Hv, L; try easy.
    apply Rltb_false in L.
    exists p, d.
    split; [reflexivity|]. split; [exact Hv|]. split; [now right|]. split.
    + intros q Hq. specialize (Hall q Hq). lra.
    + intros d0 [= <-]. lra.
Qed.

Lemma enumerate_from_In {A : Type} (items : list A) :
  forall s i a, In (i, a) (enumerate_from s items) ->
                (s <= i < s + length items)%nat.
Proof.
  induction items as [|b items IH]; intros s i a; simpl; [easy|].
  intros [[= <- <-]|H]; [lia|]. apply IH in H. lia.
Qed.

Lemma node_min (rest : list (R * nat)) :
  forall cur,
    match min_from (tuple_lt Nat.eqb node_lt) cur rest with
    | Ok m => In m (cur :: rest)
    | Raise e => e = TypeError
    | OutOfFuel => False
    end.
Proof.
  induction rest as [|item rest IH]; intros cur; simpl; auto.
  unfold tuple_lt at 1.
  destruct (Reqb (fst item) (fst cur)).
  - destruct (snd item =? snd cur)%nat.
    + specialize (IH cur).
      destruct (min_from _ cur rest); auto; simpl in *; tauto.
    + reflexivity.
  - destruct (Rltb (fst item) (fst cur)).
    + specialize (IH item).
      destruct (min_from _ item rest); auto; simpl in *; tauto.
    + specialize (IH cur).
      destruct (min_from _ cur rest); auto; simpl in *; tauto.
Qed.

Lemma find_closest_child_spec (target : Vec3) (children : list Node) :
  children <> [] ->
  match find_closest_child children target with
  | Ok i => (i < length children)%nat
  | Raise e => e = TypeError
  | OutOfFuel => False
  end.
Proof.
  intros Hne. unfold find_closest_child.
  destruct children as [|c cs]; [easy|]. simpl.
  pose proof (node_min
                (map (fun ic => (distance target (center (bbox (snd ic))),
                                 fst ic))
                     (enumerate_from 1 cs))
                (distance target (center (bbox c)), 0%nat)) as H.
  destruct (min_from _ _ _) as [m|e|]; simpl; auto.
  destruct H as [<-|H]; simpl; [lia|].
  apply in_map_iff in H. destruct H as [[i a] [<- H]].
  apply enumerate_from_In in H. simpl. lia.
Qed.

Lemma call_child_nth {A : Type} (method : Node -> result A)
    (children : list Node) :
  forall i, (i < length children)%nat ->
  exists c, nth_error children i = Some c /\
            call_child method children i = method c.
Proof.
  induction children as [|c cs IH]; intros i Hi; simpl in Hi; [lia|].
  destruct i as [|i]; simpl.
  - exists c. auto.
  - apply IH. lia.
Qed.

(** A box grown by the current distance that does not hold the target holds
    no point nearer than that distance. *)
Lemma grow_box_prunes (target : Vec3) (b : BoundingBox) (d : R) (q : Vec3) :
  inside b q = true -> inside (grow_box b d) target = false ->
  (d < distance target q)%R.
Proof.
  destruct b as [[lo hi]|]; [|discriminate].
  intros Hq Ht. apply inside_bounds in Hq.
  destruct Hq as [[? [? ?]] [? [? ?]]].
  destruct (Rlt_dec d (distance target q)) as [|Hn]; auto.
  exfalso. apply Rnot_lt_le in Hn.
  destruct (distance_axes target q) as [Hx [Hy Hz]].
  apply Rabs_bounds in Hx, Hy, Hz.
  assert (T : inside (grow_box (Some (lo, hi)) d) target = true).
  { unfold grow_box, grow. apply inside_bounds.
    unfold Vec3_le, Vec3_add; simpl. repeat split; lra. }
  rewrite T in Ht. discriminate.
Qed.

Lemma visit_children_spec (target : Vec3)
    (method : Node -> option Vec3 -> Float -> result (option Vec3 * Float))
    (closest_child : nat) (skipped : list Vec3) (children : list Node) :
  Forall (fun c =>
            tight_bound (bbox c) (all_points c) /\
            forall nn nn_dist, nn_valid target nn nn_dist ->
                               nn_spec target (all_points c) nn nn_dist
                                       (method c nn nn_dist))
         children ->
  forall i p d,
    d = distance target p ->
    (forall q, In q skipped -> (d <= distance target q)%R) ->
    (forall c, (i <= closest_child)%nat ->
               nth_error children (closest_child - i) = Some c ->
               incl (all_points c) skipped) ->
    nn_spec target (flat_map all_points children) (Some p) (Fin d)
      (visit_children method target closest_child children i (Some p) (Fin d)).
Proof.
  induction 1 as [|child cs [Ht Hm] _ IH]; intros i p d Ed Hs Hc;
    cbn [visit_children flat_map].
  - exists p, d. repeat split; auto.
    + intros q [].
    + intros d0 [= <-]. apply Rle_refl.
  - assert (K : forall p1 d1,
              d1 = distance target p1 -> (d1 <= d)%R ->
              (In p1 (all_points child) \/ p1 = p /\ d1 = d) ->
              (forall q, In q (all_points child) -> (d1 <= distance target q)%R) ->
              nn_spec target (all_points child ++ flat_map all_points cs)
                (Some p) (Fin d)
                (visit_children method target closest_child cs (S i)
                   (Some p1) (Fin d1))).
    { intros p1 d1 E1 L1 O1 A1.
      specialize (IH (S i) p1 d1 E1).
      destruct (visit_children method target closest_child cs (S i)
                  (Some p1) (Fin d1)) as [r|e|]; simpl in *.
      - destruct IH as [p2 [d2 [-> [E2 [O2 [A2 B2]]]]]].
        + intros q Hq. specialize (Hs q Hq). lra.
        + intros c Hi Hn. apply (Hc c); [lia|].
          replace (closest_child - i)%nat with (S (closest_child - S i))
            by lia. exact Hn.
        + specialize (B2 d1 eq_refl).
          exists p2, d2. repeat split; auto.
          * destruct O2 as [O2|[[= ->] [= ->]]].
            -- left. apply in_or_app. now right.
            -- destruct O1 as [O1|[-> ->]]; [left; apply in_or_app|]; auto.
          * intros q Hq. apply in_app_or in Hq. destruct Hq as [Hq|Hq].
            -- specialize (A1 q Hq). lra.
            -- now apply A2.
          * intros d0 [= <-]. lra.
      - apply IH.
        + intros q Hq. specialize (Hs q Hq). lra.
        + intros c Hi Hn. apply (Hc c); [lia|].
          replace (closest_child - i)%nat with (S (closest_child - S i))
            by lia. exact Hn.
      - apply IH.
        + intros q Hq. specialize (Hs q Hq). lra.
        + intros c Hi Hn. apply (Hc c); [lia|].
          replace (closest_child - i)%nat with (S (closest_child - S i))
            by lia. exact Hn. }
    destruct (Nat.eqb_spec i closest_child) as [->|Hneq].
    + apply K; auto using Rle_refl.
      intros q Hq. apply Hs. apply (Hc child (le_n _)); auto.
      now rewrite Nat.sub_diag.
    + destruct (inside_grown (bbox child) (Fin d) target) eqn:G.
      * specialize (Hm (Some p) (Fin d) Ed).
        destruct (method child (Some p) (Fin d)) as [[point dist]|e|];
          simpl in Hm; [|exact Hm|contradiction].
        destruct Hm as [p1 [d1 [[= -> ->] [E1 [O1 [A1 B1]]]]]].
        specialize (B1 d eq_refl).
        destruct (Float_ltb (Fin d1) (Fin d)) eqn:L; simpl in L.
        -- apply K; auto.
           destruct O1 as [O1|[[= ->] [= ->]]]; auto.
        -- apply Rltb_false in L. apply K; auto using Rle_refl.
           intros q Hq. specialize (A1 q Hq). lra.
      * apply K; auto using Rle_refl.
        intros q Hq. simpl in G.
        pose proof (grow_box_prunes target (bbox child) d q
                      (tight_bound_inside _ _ q Ht Hq) G). lra.
Qed.

Lemma nearest_neighbor_spec (point_eq point_lt : Vec3 -> Vec3 -> bool)
    (target : Vec3) (max_size : Z) (t : Node) :
  built max_size t ->
  forall nn nn_dist, nn_valid target nn nn_dist ->
    nn_spec target (all_points t) nn nn_dist
            (_nearest_neighbor point_eq point_lt t target nn nn_dist).
Proof.
  induction 1 as [points Hne _ | children Hne HB IH _] using built_ind';
    intros nn nn_dist Hv.
  - now apply leaf_nearest.
  - unfold InnerNode. cbn [_nearest_neighbor].
    pose proof (find_closest_child_spec target children Hne) as F.
    destruct (find_closest_child children target) as [ci|e|]; simpl; auto.
    destruct (call_child_nth
                (fun child => _nearest_neighbor point_eq point_lt child
                                target nn nn_dist) children ci F)
      as [cc [Hcc ->]].
    assert (Hin : In cc children) by (eapply nth_error_In; eauto).
    rewrite Forall_forall in IH, HB.
    pose proof (IH cc Hin nn nn_dist Hv) as S1.
    destruct (_nearest_neighbor point_eq point_lt cc target nn nn_dist)
      as [[nn1 d1]|e|]; simpl in S1; auto.
    destruct S1 as [p1 [dd [[= -> ->] [E1 [O1 [A1 B1]]]]]].
    pose proof (visit_children_spec target
                  (fun child => _nearest_neighbor point_eq point_lt child target)
                  ci (all_points cc) children) as V.
    specialize (V ltac:(apply Forall_forall; intros c Hc; split;
                        [eapply built_tight; eauto | now apply IH])
                  0%nat p1 dd E1 A1).
    destruct (visit_children _ target ci children 0 (Some p1) (Fin dd))
      as [r|e|]; simpl in *.
    + destruct V as [p2 [d2 [-> [E2 [O2 [A2 B2]]]]]].
      * intros c _ Hn. rewrite Nat.sub_0_r in Hn.
        rewrite Hcc in Hn. injection Hn as <-. apply incl_refl.
      * specialize (B2 dd eq_refl).
        exists p2, d2. repeat split; auto.
        -- destruct O2 as [O2|[[= ->] [= ->]]]; auto.
           destruct O1 as [O1|O1]; auto.
           left. apply in_flat_map. eauto.
        -- intros d0 Hd0. specialize (B1 d0 Hd0). lra.
    + apply V. intros c _ Hn. rewrite Nat.sub_0_r in Hn.
      rewrite Hcc in Hn. injection Hn as <-. apply incl_refl.
    + apply V. intros c _ Hn. rewrite Nat.sub_0_r in Hn.
      rewrite Hcc in Hn. injection Hn as <-. apply incl_refl.
Qed.

(** ** Nearest neighbour: when the search returns *)

Lemma node_min_distinct (rest : list (R * nat)) :
  forall cur, NoDup (map fst (cur :: rest)) ->
  exists m, min_from (tuple_lt Nat.eqb node_lt) cur rest = Ok m.
Proof.
  induction rest as [|item rest IH]; intros cur Hd; simpl.
  - eauto.
  - simpl in Hd. apply NoDup_cons_iff in Hd. destruct Hd as [H1 H2].
    apply NoDup_cons_iff in H2. destruct H2 as [H2 H3].
    unfold tuple_lt at 1.
    destruct (Reqb (fst item) (fst cur)) eqn:E.
    { apply Reqb_true in E. exfalso. apply H1. left. exact E. }
    destruct (Rltb (fst item) (fst cur)).
    + apply IH. simpl. now apply NoDup_cons.
    + apply IH. simpl. apply NoDup_cons; auto.
      intros Hin. apply H1. now right.
Qed.

Lemma enumerate_from_keys (target : Vec3) (children : list Node) :
  forall s,
    map fst (map (fun ic : nat * Node =>
                    (distance target (center (bbox (snd ic))), fst ic))
                 (enumerate_from s children))
    = map (fun c => distance target (center (bbox c))) children.
Proof.
  induction children as [|c cs IH]; intros s; simpl; auto.
  now rewrite IH.
Qed.

Lemma find_closest_child_Ok (target : Vec3) (children : list Node) :
  children <> [] -> no_ties target (Inner None children) ->
  exists i, find_closest_child children target = Ok i.
Proof.
  intros Hne Hd. unfold find_closest_child.
  destruct children as [|c cs]; [easy|].
  cbn [length Nat.eqb enumerate_from map py_min].
  destruct (node_min_distinct
              (map (fun ic : nat * Node =>
                      (distance target (center (bbox (snd ic))), fst ic))
                   (enumerate_from 1 cs))
              (distance target (center (bbox c)), 0%nat)) as [m Hm].
  { cbn [map fst]. rewrite enumerate_from_keys. exact Hd. }
  cbn [snd fst]. rewrite Hm. simpl. eauto.
Qed.

Lemma nearest_neighbor_returns (point_eq point_lt : Vec3 -> Vec3 -> bool)
    (target : Vec3) (max_size : Z) (t : Node) :
  built max_size t -> Forall (no_ties target) (nodes t) ->
  forall nn nn_dist, nn_valid target nn nn_dist ->
    returns (_nearest_neighbor point_eq point_lt t target nn nn_dist).
Proof.
  induction 1 as [points Hne _ | children Hne HB IH _] using built_ind';
    intros Hnt nn nn_dist Hv.
  - unfold LeafNode. cbn [_nearest_neighbor].
    destruct points as [|p0 points]; [easy|]. cbn [map py_min].
    destruct (point_min point_eq point_lt
                (map (fun p => (distance target p, p)) points)
                (distance target p0, p0)) as [[dm pm] [-> _]].
    destruct (Float_ltb (Fin dm) nn_dist); exact I.
  - unfold InnerNode in *. cbn [nodes] in Hnt.
    apply Forall_cons_iff in Hnt. destruct Hnt as [Hroot Hsub].
    assert (Hch : Forall (fun c => forall nn nn_dist,
                            nn_valid target nn nn_dist ->
                            returns (_nearest_neighbor point_eq point_lt c
                                       target nn nn_dist)) children).
    { clear - IH Hsub. induction IH as [|c cs Hc _ IHc]; constructor.
      - apply Hc. cbn [flat_map] in Hsub. apply Forall_app in Hsub. tauto.
      - apply IHc. cbn [flat_map] in Hsub. apply Forall_app in Hsub. tauto. }
    cbn [_nearest_neighbor].
    destruct (find_closest_child_Ok target children Hne Hroot) as [ci Eci].
    pose proof (find_closest_child_spec target children Hne) as F.
    rewrite Eci in *. simpl in F.
    destruct (call_child_nth
                (fun child => _nearest_neighbor point_eq point_lt child
                                target nn nn_dist) children ci F)
      as [cc [Hcc ->]].
    assert (Hin : In cc children) by (eapply nth_error_In; eauto).
    rewrite Forall_forall in Hch, HB.
    pose proof (Hch cc Hin nn nn_dist Hv) as R1.
    pose proof (nearest_neighbor_spec point_eq point_lt target max_size cc
                  (HB cc Hin) nn nn_dist Hv) as S1.
    destruct (_nearest_neighbor point_eq point_lt cc target nn nn_dist)
      as [[nn1 d1]|e|]; simpl in R1, S1; [|contradiction|contradiction].
    destruct S1 as [p1 [dd [[= -> ->] [V1 _]]]].
    (* every later call starts from a valid state: the loop keeps one *)
    assert (G : forall cs i p d,
              d = distance target p -> incl cs children ->
              returns (visit_children
                         (fun child => _nearest_neighbor point_eq point_lt
                                         child target)
                         target ci cs i (Some p) (Fin d))).
    { induction cs as [|child cs IHcs]; intros i p d Ed Hi;
        cbn [visit_children]; [exact I|].
      assert (Hi' : incl cs children).
      { intros c Hc. apply Hi. now right. }
      destruct (i =? ci)%nat; [now apply IHcs|].
      destruct (inside_grown (bbox child) (Fin d) target); [|now apply IHcs].
      assert (Hchild : In child children) by (apply Hi; now left).
      pose proof (Hch child Hchild (Some p) (Fin d) Ed) as R2.
      pose proof (nearest_neighbor_spec point_eq point_lt target max_size child
                    (HB child Hchild) (Some p) (Fin d) Ed) as S2.
      destruct (_nearest_neighbor point_eq point_lt child target (Some p) (Fin d))
        as [[nn2 d2]|e|]; simpl in R2, S2; [|contradiction|contradiction].
      destruct S2 as [p2 [dd2 [[= -> ->] [V2 _]]]].
      destruct (Float_ltb (Fin dd2) (Fin d)); now apply IHcs. }
    apply G; auto. apply incl_refl.
Qed.

(** ** Evaluation on concrete floats *)

Ltac rdecide :=
  repeat match goal with
    | |- context [Rmin ?a ?b] =>
        first [ rewrite (Rmin_left a b) by lra
              | rewrite (Rmin_right a b) by lra ]
    | |- context [Rmax ?a ?b] =>
        first [ rewrite (Rmax_left a b) by lra
              | rewrite (Rmax_right a b) by lra ]
    | |- context [Rleb ?a ?b] =>
        first [ rewrite (proj2 (Rleb_true a b)) by lra
              | rewrite (proj2 (Rleb_false a b)) by lra ]
    | |- context [Rltb ?a ?b] =>
        first [ rewrite (proj2 (Rltb_true a b)) by lra
              | rewrite (proj2 (Rltb_false a b)) by lra ]
    | |- context [Reqb ?a ?b] =>
        first [ rewrite (proj2 (Reqb_true a b)) by lra
              | rewrite (proj2 (Reqb_false a b)) by lra ]
    end.

Lemma tie_points_sorted : split_sorted tie_points = tie_points.
Proof.
  unfold split_sorted, split_dim, tie_points, BoundingBox_init, extend.
  simpl. unfold Vec3_min, Vec3_max; simpl. rdecide. simpl.
  unfold Vec3_getitem; simpl. repeat (progress (rdecide; simpl)).
  reflexivity.
Qed.

Lemma RTree_init_value (points : loc) (max_node_size : Z) (h : heap)
    (root : Node) :
  (2 <= max_node_size)%Z -> read [] h points <> [] ->
  make_node_value (read [] h points) max_node_size
    (box_split_value (length (read [] h points))) = Ok root ->
  fst (RTree_init points max_node_size h) = Ok (mkRTree root).
Proof.
  intros Hmax Hne V. rewrite RTree_init_unfold.
  destruct (Z.ltb_spec max_node_size 2); [lia|]. cbv zeta.
  destruct (Nat.eqb_spec (length (read [] h points)) 0) as [E|_].
  { apply length_zero_iff_nil in E. contradiction. }
  destruct (make_node_copy max_node_size (length (read [] h points)) h
              (read [] h points)) as [E _].
  rewrite V in E.
  destruct (make_node _ _ _ _) as [[root'|e|] h2]; simpl in E; try discriminate.
  injection E as ->. reflexivity.
Qed.

Lemma tie_tree_built : fst (RTree_init 0 2 [tie_points]) = Ok tie_tree.
Proof.
  apply RTree_init_value; [lia | discriminate |].
  change (read [] [tie_points] 0) with tie_points.
  unfold make_node_value. simpl. rewrite tie_points_sorted. reflexivity.
Qed.

(** * The claims *)

(** C1: the code breaks the claim.  On the four points [0, 2, 4, 6] of the x
    axis with [max_node_size = 2] the root is an inner node over the leaves
    [[0, 2]] and [[4, 6]], whose box centres [1] and [5] are equally far from
    the target [3].  [find_closest_child] then compares the two tuples
    [(2.0, node)] in [min]; the distances are equal, so the nodes are
    compared, and the call raises [TypeError]: no nearest point is
    returned. *)
Theorem nearest_neighbor_tie_raises (point_eq point_lt : Vec3 -> Vec3 -> bool) :
  fst (RTree_init 0 2 [tie_points]) = Ok tie_tree /\
  RTree_nearest_neighbor point_eq point_lt tie_tree (mkVec3 3 0 0)
  = Raise TypeError.
Proof.
  split; [exact tie_tree_built|].
  unfold RTree_nearest_neighbor, Node_nearest_neighbor, tie_tree, InnerNode.
  simpl _root. cbn [_nearest_neighbor].
  assert (F : find_closest_child
                [LeafNode [mkVec3 0 0 0; mkVec3 2 0 0];
                 LeafNode [mkVec3 4 0 0; mkVec3 6 0 0]] (mkVec3 3 0 0)
              = Raise TypeError).
  { unfold find_closest_child, LeafNode, BoundingBox_init, extend. simpl.
    unfold Vec3_min, Vec3_max; simpl. rdecide.
    unfold tuple_lt, distance, magnitude, Vec3_add, Vec3_mul, Vec3_sub; simpl.
    match goal with
    | |- context [Reqb (sqrt ?a) (sqrt ?b)] =>
        rewrite (proj2 (Reqb_true (sqrt a) (sqrt b))) by (f_equal; lra)
    end.
    reflexivity. }
  rewrite F. reflexivity.
Qed.

(** In exact arithmetic (floats idealised as real numbers: no rounding and
    no overflow of a distance to [INF]) the search is right apart from the
    failing case of C1: [nearest_neighbor] either returns an input point
    that is no farther from the target than any input point, or raises the
    [TypeError] of [find_closest_child]; and it returns whenever no inner
    node has two children with box centres equally far from the target. *)
Theorem nearest_neighbor_when_it_returns
    (point_eq point_lt : Vec3 -> Vec3 -> bool)
    (points : loc) (max_node_size : Z) (h : heap) (target : Vec3) :
  read [] h points <> [] -> (2 <= max_node_size)%Z ->
  exists t,
    fst (RTree_init points max_node_size h) = Ok t /\
    match RTree_nearest_neighbor point_eq point_lt t target with
    | Ok p => In p (read [] h points) /\
              forall q, In q (read [] h points) ->
                        (distance target p <= distance target q)%R
    | Raise e => e = TypeError
    | OutOfFuel => False
    end /\
    (Forall (no_ties target) (nodes (_root t)) ->
     exists p, RTree_nearest_neighbor point_eq point_lt t target = Ok p).
Proof.
  intros Hne Hmax.
  destruct (RTree_init_built points max_node_size h Hne Hmax)
    as [t [E [Hb Hp]]].
  exists t. split; [exact E|].
  pose proof (nearest_neighbor_spec point_eq point_lt target max_node_size
                (_root t) Hb None INF I) as S.
  unfold RTree_nearest_neighbor, Node_nearest_neighbor.
  split.
  - destruct (_nearest_neighbor point_eq point_lt (_root t) target None INF)
      as [r|e|]; simpl in S; auto.
    destruct S as [p [d [-> [Ed [O [A _]]]]]].
    destruct O as [O|[[=] _]]. split.
    + eapply Permutation_in; eauto.
    + intros q Hq. rewrite <- Ed. apply A.
      eapply Permutation_in; [symmetry|]; eauto.
  - intros Hnt.
    pose proof (nearest_neighbor_returns point_eq point_lt target
                  max_node_size (_root t) Hb Hnt None INF I) as R.
    destruct (_nearest_neighbor point_eq point_lt (_root t) target None INF)
      as [r|e|]; simpl in S, R; try contradiction.
    destruct S as [p [d [-> _]]]. eauto.
Qed.


(** C2: the code breaks the claim.  On the points [(0,0,0)], [(0.1,0,0)],
    [(100,0,0)] with [max_node_size = 2] the root has the leaves
    [[(0,0,0), (0.1,0,0)]] and [[(100,0,0)]].  For the centre [(2.1,0,0)] and
    the radius [2.0] the point [(0.1,0,0)] is at the distance [2.0] computed
    by the leaf test, so it is a point of the boundary; but the box test of
    the inner node rounds [2.1 - 0.05] up to [2.0500000000000003], above
    [0.05 + 2.0], and skips the leaf: the query yields nothing.  The same
    points in a single leaf ([max_node_size = 3]) do yield [(0.1,0,0)]. *)
Theorem points_in_sphere_omits_boundary_point :
  Binary64.RTree_init Binary64.boundary_points 2 = Ok Binary64.boundary_tree /\
  In Binary64.boundary_point Binary64.boundary_points /\
  PrimFloat.leb
    (Binary64.distance Binary64.boundary_center Binary64.boundary_point)
    Binary64.boundary_radius = true /\
  Binary64.RTree_points_in_sphere
    Binary64.boundary_tree Binary64.boundary_center Binary64.boundary_radius
  = [] /\
  (forall t,
     Binary64.RTree_init Binary64.boundary_points 3 = Ok t ->
     Binary64.RTree_points_in_sphere
       t Binary64.boundary_center Binary64.boundary_radius
     = [Binary64.boundary_point]).
Proof.
  split; [vm_compute; reflexivity|].
  split; [right; left; reflexivity|].
  split; [vm_compute; reflexivity|].
  split; [vm_compute; reflexivity|].
  intros t E. vm_compute in E. injection E as <-. vm_compute. reflexivity.
Qed.

(** In exact arithmetic (floats idealised as real numbers, no rounding) the
    sphere query is exact: for every constructed index, centre and radius it
    yields the input points [p] with [distance p center <= radius], the
    points on the boundary included, each as often as the input holds it.
    With the rounding of floats this fails, as the evaluation on binary64
    numbers above shows. *)
Theorem points_in_sphere_exact (points : loc) (max_node_size : Z) (h : heap)
    (center_ : Vec3) (radius : R) :
  read [] h points <> [] -> (2 <= max_node_size)%Z ->
  exists t,
    fst (RTree_init points max_node_size h) = Ok t /\
    Permutation (RTree_points_in_sphere t center_ radius)
      (filter (fun p => Rleb (distance p center_) radius) (read [] h points)) /\
    forall p, In p (RTree_points_in_sphere t center_ radius) <->
              In p (read [] h points) /\ (distance p center_ <= radius)%R.
Proof.
  intros Hne Hmax.
  destruct (RTree_init_built points max_node_size h Hne Hmax)
    as [t [E [Hb Hp]]].
  exists t. split; [exact E|].
  assert (P : Permutation (RTree_points_in_sphere t center_ radius)
                (filter (fun p => Rleb (distance p center_) radius)
                        (read [] h points))).
  { unfold RTree_points_in_sphere.
    rewrite (points_in_sphere_built max_node_size) by assumption.
    rewrite (filter_ext _ (fun p => Rleb (distance p center_) radius))
      by (intros p; now rewrite distance_sym).
    now apply Permutation_filter'. }
  split; [exact P|].
  intros p. rewrite <- Rleb_true.
  rewrite <- (filter_In (fun p => Rleb (distance p center_) radius)).
  split; intros H.
  - eapply Permutation_in; eauto.
  - eapply Permutation_in; [symmetry|]; eauto.
Qed.

Lemma points_in_sphere_exact_witness :
  read [] [sample_points] 0 <> [] /\ (2 <= 2)%Z /\
  exists t,
    fst (RTree_init 0 2 [sample_points]) = Ok t /\
    Permutation (RTree_points_in_sphere t (mkVec3 0 0 0) 1)
      (filter (fun p => Rleb (distance p (mkVec3 0 0 0)) 1)
              (read [] [sample_points] 0)) /\
    forall p, In p (RTree_points_in_sphere t (mkVec3 0 0 0) 1) <->
              In p (read [] [sample_points] 0) /\
              (distance p (mkVec3 0 0 0) <= 1)%R.
Proof.
  split; [discriminate|]. split; [lia|].
  apply (points_in_sphere_exact 0 2 [sample_points] (mkVec3 0 0 0) 1);
    [discriminate | lia].
Defined.

(** C3: for every constructed index and query box, [points_in_bbox] yields
    exactly the input points inside the query box, the points on its boundary
    included; an inner node recurses only into the children whose box overlaps
    the query box, and that pruning loses no qualifying point. *)
Theorem points_in_bbox_exact (points : loc) (max_node_size : Z) (h : heap)
    (box : BoundingBox) :
  read [] h points <> [] -> (2 <= max_node_size)%Z ->
  exists t,
    fst (RTree_init points max_node_size h) = Ok t /\
    Permutation (RTree_points_in_bbox t box)
      (filter (fun p => inside box p) (read [] h points)) /\
    (forall p, In p (RTree_points_in_bbox t box) <->
               In p (read [] h points) /\ inside box p = true) /\
    (forall b children,
       points_in_bbox (Inner b children) box
       = flat_map (fun child => if has_overlap box (bbox child)
                                then points_in_bbox child box else [])
                  children).
Proof.
  intros Hne Hmax.
  destruct (RTree_init_built points max_node_size h Hne Hmax)
    as [t [E [Hb Hp]]].
  exists t. split; [exact E|].
  assert (P : Permutation (RTree_points_in_bbox t box)
                (filter (fun p => inside box p) (read [] h points))).
  { unfold RTree_points_in_bbox.
    rewrite (points_in_bbox_built max_node_size) by assumption.
    now apply Permutation_filter'. }
  split; [exact P|]. split; [|reflexivity].
  intros p. rewrite <- (filter_In (fun p => inside box p)).
  split; intros H.
  - eapply Permutation_in; eauto.
  - eapply Permutation_in; [symmetry|]; eauto.
Qed.

Lemma points_in_bbox_exact_witness :
  read [] [sample_points] 0 <> [] /\ (2 <= 2)%Z /\
  exists t,
    fst (RTree_init 0 2 [sample_points]) = Ok t /\
    Permutation
      (RTree_points_in_bbox t (Some (mkVec3 0 0 0, mkVec3 5 5 0)))
      (filter (fun p => inside (Some (mkVec3 0 0 0, mkVec3 5 5 0)) p)
              (read [] [sample_points] 0)) /\
    (forall p,
       In p (RTree_points_in_bbox t (Some (mkVec3 0 0 0, mkVec3 5 5 0))) <->
       In p (read [] [sample_points] 0) /\
       inside (Some (mkVec3 0 0 0, mkVec3 5 5 0)) p = true) /\
    (forall b children,
       points_in_bbox (Inner b children) (Some (mkVec3 0 0 0, mkVec3 5 5 0))
       = flat_map
           (fun child =>
              if has_overlap (Some (mkVec3 0 0 0, mkVec3 5 5 0)) (bbox child)
              then points_in_bbox child (Some (mkVec3 0 0 0, mkVec3 5 5 0))
              else [])
           children).
Proof.
  split; [discriminate|]. split; [lia|].
  apply (points_in_bbox_exact 0 2 [sample_points]
           (Some (mkVec3 0 0 0, mkVec3 5 5 0)));
    [discriminate | lia].
Defined.

Lemma built_bounded (max_size : Z) (t : Node) :
  (2 <= max_size)%Z -> built max_size t -> bounded max_size t.
Proof.
  intros Hmax [points H1 H2 | children H1 H2 H3].
  - simpl. destruct points; [easy | simpl length in *; lia].
  - cbv zeta in H3. destruct H3 as [Hn [_ Hs]].
    unfold bounded, InnerNode. rewrite len_all_points. simpl all_points.
    eapply Forall_impl; [|exact Hs]. intros c Hc. simpl in Hc.
    rewrite len_all_points.
    pose proof (ceil_bounds _ max_size Hmax Hn). lia.
Qed.

Lemma built_box_assigned (max_size : Z) (t : Node) :
  built max_size t -> box_assigned t.
Proof.
  intros [points H1 H2 | children H1 H2 H3]; simpl; auto.
  apply InnerNode_bbox_join.
  eapply Forall_impl; [|exact H2]. intros c Hc.
  eapply tight_bound_ordered, built_tight, Hc.
Qed.

Lemma built_len_pos (max_size : Z) (t : Node) :
  built max_size t -> (0 < len t)%nat.
Proof.
  intros H. rewrite len_all_points.
  pose proof (built_nonempty max_size t H).
  destruct (all_points t); [easy | simpl; lia].
Qed.

Lemma math_isclose_refl (a : R) : math_isclose a a = true.
Proof.
  unfold math_isclose. apply Rleb_true.
  replace (a - a)%R with 0%R by ring. rewrite Rabs_R0.
  eapply Rle_trans; [|apply Rmax_r]. lra.
Qed.

Lemma Vec3_isclose_refl (v : Vec3) : Vec3_isclose v v = true.
Proof. unfold Vec3_isclose. now rewrite !math_isclose_refl. Qed.

Lemma grow_box_object_spec (s : store BoundingBox) (box : loc) (dist : R) :
  let r := grow_box_object box dist s in
  (forall l, (l < length s)%nat -> read None (snd r) l = read None s l) /\
  fst r = length s /\
  read None (snd r) (fst r) = grow_box (read None s box) dist.
Proof.
  unfold grow_box_object, BoundingBox_copy, BoundingBox_grow, alloc; simpl.
  pose proof (read_alloc_new None s (read None s box)) as Rn.
  unfold alloc in Rn; simpl in Rn.
  split; [|split; [reflexivity|]].
  - intros l Hl. rewrite read_write_other by lia.
    apply (read_alloc_old None s _ l Hl).
  - rewrite read_write_same by (rewrite length_app; simpl; lia).
    unfold grow_box. f_equal. exact Rn.
Qed.

(** C5: for every constructed index, [len] is the number of points supplied
    at construction, duplicates counted; the size of a leaf is its point
    count, the size of an inner node is the sum of the sizes of its children,
    and every node of the tree has a positive size. *)
Theorem size_is_point_count (points : loc) (max_node_size : Z) (h : heap) :
  read [] h points <> [] -> (2 <= max_node_size)%Z ->
  exists t,
    fst (RTree_init points max_node_size h) = Ok t /\
    RTree_len t = length (read [] h points) /\
    Forall
      (fun node =>
         (0 < len node)%nat /\
         len node = match node with
                    | Leaf _ pts => length pts
                    | Inner _ children => list_sum (map len children)
                    end)
      (nodes (_root t)).
Proof.
  intros Hne Hmax.
  destruct (RTree_init_built points max_node_size h Hne Hmax)
    as [t [E [Hb Hp]]].
  exists t. split; [exact E|]. split.
  - unfold RTree_len. rewrite len_all_points. now apply Permutation_length.
  - eapply Forall_impl; [|exact (built_nodes _ _ Hb)].
    intros node Hn. split; [eapply built_len_pos; eauto|].
    destruct node; reflexivity.
Qed.

Lemma size_is_point_count_witness :
  read [] [sample_points] 0 <> [] /\ (2 <= 2)%Z /\
  exists t,
    fst (RTree_init 0 2 [sample_points]) = Ok t /\
    RTree_len t = length (read [] [sample_points] 0) /\
    Forall
      (fun node =>
         (0 < len node)%nat /\
         len node = match node with
                    | Leaf _ pts => length pts
                    | Inner _ children => list_sum (map len children)
                    end)
      (nodes (_root t)).
Proof.
  split; [discriminate|]. split; [lia|].
  apply (size_is_point_count 0 2 [sample_points]); [discriminate | lia].
Defined.

(** C6: for every constructed index, [contains p] is true for every point [p]
    of the input (the comparison is the within-tolerance [isclose], under
    which a point is close to itself), and [contains q] is false for every
    point [q] outside the bounding volume of the input points that is beyond
    tolerance of every stored point. *)
Theorem contains_sound (isclose : Vec3 -> Vec3 -> bool)
    (points : loc) (max_node_size : Z) (h : heap) :
  (forall v, isclose v v = true) ->
  read [] h points <> [] -> (2 <= max_node_size)%Z ->
  exists t,
    fst (RTree_init points max_node_size h) = Ok t /\
    (forall p, In p (read [] h points) -> RTree_contains isclose t p = true) /\
    (forall q,
       inside (BoundingBox_init (read [] h points)) q = false ->
       (forall p, In p (read [] h points) -> isclose q p = false) ->
       RTree_contains isclose t q = false).
Proof.
  intros Hrefl Hne Hmax.
  destruct (RTree_init_built points max_node_size h Hne Hmax)
    as [t [E [Hb Hp]]].
  exists t. split; [exact E|]. split.
  - intros p Hin. unfold RTree_contains.
    apply (contains_built isclose max_node_size); auto.
    eapply Permutation_in; [symmetry|]; eauto.
  - intros q _ Hfar. unfold RTree_contains.
    destruct (contains isclose (_root t) q) eqn:C; auto.
    apply contains_close in C. destruct C as [p [Hin Hc]].
    rewrite Hfar in Hc; [discriminate|].
    eapply Permutation_in; eauto.
Qed.

Lemma contains_sound_witness :
  (forall v, Vec3_isclose v v = true) /\
  read [] [sample_points] 0 <> [] /\ (2 <= 2)%Z /\
  exists t,
    fst (RTree_init 0 2 [sample_points]) = Ok t /\
    (forall p, In p (read [] [sample_points] 0) ->
               RTree_contains Vec3_isclose t p = true) /\
    (forall q,
       inside (BoundingBox_init (read [] [sample_points] 0)) q = false ->
       (forall p, In p (read [] [sample_points] 0) ->
                  Vec3_isclose q p = false) ->
       RTree_contains Vec3_isclose t q = false).
Proof.
  split; [exact Vec3_isclose_refl|]. split; [discriminate|]. split; [lia|].
  apply (contains_sound Vec3_isclose 0 2 [sample_points]);
    [exact Vec3_isclose_refl | discriminate | lia].
Defined.

(** C7: the construction fails with [ValueError] if and only if the point
    collection is empty or [max_node_size < 2]; it fails before any node is
    built (the store then holds at most the copy of the empty input: no list
    was sorted or sliced), so no index exists after a failure; and for a
    non-empty input with [max_node_size >= 2] it returns an index, which
    holds a point. *)
Theorem construction_fails_iff (points : loc) (max_node_size : Z) (h : heap) :
  (fst (RTree_init points max_node_size h) = Raise ValueError <->
   read [] h points = [] \/ (max_node_size < 2)%Z) /\
  ((max_node_size < 2)%Z ->
   RTree_init points max_node_size h = (Raise ValueError, h)) /\
  ((2 <= max_node_size)%Z -> read [] h points = [] ->
   RTree_init points max_node_size h = (Raise ValueError, h ++ [[]])) /\
  ((2 <= max_node_size)%Z -> read [] h points <> [] ->
   exists t, fst (RTree_init points max_node_size h) = Ok t /\
             (0 < RTree_len t)%nat).
Proof.
  assert (F1 : (max_node_size < 2)%Z ->
               RTree_init points max_node_size h = (Raise ValueError, h)).
  { intros H. rewrite RTree_init_unfold.
    destruct (Z.ltb_spec max_node_size 2); [reflexivity | lia]. }
  assert (F2 : (2 <= max_node_size)%Z -> read [] h points = [] ->
               RTree_init points max_node_size h
               = (Raise ValueError, h ++ [[]])).
  { intros H E. rewrite RTree_init_unfold.
    destruct (Z.ltb_spec max_node_size 2); [lia|]. now rewrite E. }
  assert (F3 : (2 <= max_node_size)%Z -> read [] h points <> [] ->
               exists t, fst (RTree_init points max_node_size h) = Ok t /\
                         (0 < RTree_len t)%nat).
  { intros H Hne.
    destruct (RTree_init_built points max_node_size h Hne H)
      as [t [E [Hb _]]].
    exists t. split; auto. eapply built_len_pos; eauto. }
  repeat split; auto.
  - intros E. destruct (Z.ltb_spec max_node_size 2); auto.
    left. destruct (read [] h points) eqn:R; auto.
    destruct F3 as [t [Et _]]; [lia | congruence |].
    rewrite Et in E. discriminate.
  - intros [E|H].
    + destruct (Z.ltb_spec max_node_size 2).
      * now rewrite F1.
      * now rewrite F2.
    + now rewrite F1.
Qed.

(** C8: in every constructed tree, the box stored in each node is the tight
    axis-aligned bound of the points reachable under that node; the box of a
    leaf is the bound of its points and the box of an inner node is the union
    of the boxes of its children.  The boxes are assigned by [__init__] and
    nothing changes them afterwards: the queries return points, truth values
    and distances, never a node, and the one place that updates a box,
    [grow_box], updates a copy and leaves every existing box as it was. *)
Theorem boxes_are_tight (points : loc) (max_node_size : Z) (h : heap) :
  read [] h points <> [] -> (2 <= max_node_size)%Z ->
  exists t,
    fst (RTree_init points max_node_size h) = Ok t /\
    Forall (fun node => tight_bound (bbox node) (all_points node) /\
                        box_assigned node)
           (nodes (_root t)) /\
    (forall (s : store BoundingBox) (box : loc) (dist : R),
       let r := grow_box_object box dist s in
       (forall l, (l < length s)%nat -> read None (snd r) l = read None s l) /\
       read None (snd r) (fst r) = grow_box (read None s box) dist).
Proof.
  intros Hne Hmax.
  destruct (RTree_init_built points max_node_size h Hne Hmax)
    as [t [E [Hb _]]].
  exists t. split; [exact E|]. split.
  - eapply Forall_impl; [|exact (built_nodes _ _ Hb)].
    intros node Hn. split.
    + eapply built_tight; eauto.
    + eapply built_box_assigned; eauto.
  - intros s box dist.
    destruct (grow_box_object_spec s box dist) as [H1 [_ H2]]. auto.
Qed.

Lemma boxes_are_tight_witness :
  read [] [sample_points] 0 <> [] /\ (2 <= 2)%Z /\
  exists t,
    fst (RTree_init 0 2 [sample_points]) = Ok t /\
    Forall (fun node => tight_bound (bbox node) (all_points node) /\
                        box_assigned node)
           (nodes (_root t)) /\
    (forall (s : store BoundingBox) (box : loc) (dist : R),
       let r := grow_box_object box dist s in
       (forall l, (l < length s)%nat -> read None (snd r) l = read None s l) /\
       read None (snd r) (fst r) = grow_box (read None s box) dist).
Proof.
  split; [discriminate|]. split; [lia|].
  apply (boxes_are_tight 0 2 [sample_points]); [discriminate | lia].
Defined.

(** C9: for a non-empty point list and [max_node_size >= 2] the recursion of
    [make_node] and [box_split] ends: with fuel for as many levels as there
    are points it returns a tree, and so does the constructor.  Each split of
    [n > max_node_size] points makes groups of at most
    [k = ceil (n / max_node_size)] points, which is fewer than [n], and the
    leaves reached hold at most [max_node_size] points. *)
Theorem construction_terminates (points : loc) (max_node_size : Z) (h : heap)
    (fuel : nat) :
  read [] h points <> [] -> (2 <= max_node_size)%Z ->
  (length (read [] h points) <= fuel)%nat ->
  (exists t,
     fst (make_node points max_node_size (box_split fuel) h) = Ok t /\
     Forall (bounded max_node_size) (nodes t)) /\
  (exists t, fst (RTree_init points max_node_size h) = Ok t) /\
  (forall n, (max_node_size < n)%Z -> (ceil n max_node_size < n)%Z).
Proof.
  intros Hne Hmax Hf. split; [|split].
  - destruct (make_node_value_builds max_node_size Hmax fuel
                (read [] h points) Hne Hf) as [t [E [Hb _]]].
    exists t. split.
    + destruct (make_node_refines max_node_size _ _
                  (box_split_refines max_node_size fuel) points h
                  (read_nonempty_lt h points Hne)) as [E1 _].
      now rewrite E1.
    + eapply Forall_impl; [|exact (built_nodes _ _ Hb)].
      intros node. now apply built_bounded.
  - destruct (RTree_init_built points max_node_size h Hne Hmax)
      as [t [E _]]. eauto.
  - intros n Hn. apply (ceil_bounds n max_node_size Hmax Hn).
Qed.

Lemma construction_terminates_witness :
  read [] [sample_points] 0 <> [] /\ (2 <= 2)%Z /\
  (length (read [] [sample_points] 0) <= 5)%nat /\
  (exists t,
     fst (make_node 0 2 (box_split 5) [sample_points]) = Ok t /\
     Forall (bounded 2) (nodes t)) /\
  (exists t, fst (RTree_init 0 2 [sample_points]) = Ok t) /\
  (forall n, (2 < n)%Z -> (ceil n 2 < n)%Z).
Proof.
  split; [discriminate|]. split; [lia|]. split; [simpl; lia|].
  apply (construction_terminates 0 2 [sample_points] 5);
    [discriminate | lia | simpl; lia].
Defined.

(** C10: constructing an index changes no list object of the caller, whether
    the constructor returns or raises: it copies the supplied collection into
    a new list object and builds from the copy.  The in-place sort of
    [box_split] updates only the list it is given (the copy, or a slice made
    from it), and the slices are new objects. *)
Theorem construction_keeps_caller_lists (points : loc) (max_node_size : Z)
    (h : heap) :
  let h' := snd (RTree_init points max_node_size h) in
  (length h <= length h')%nat /\
  (forall l, (l < length h)%nat -> read [] h' l = read [] h l) /\
  (forall (fuel : nat) (l : loc) (h0 : heap) (l' : loc),
     (l < length h0)%nat -> (l' < length h0)%nat -> l' <> l ->
     read [] (snd (box_split fuel l max_node_size h0)) l' = read [] h0 l').
Proof.
  destruct (RTree_init_preserves points max_node_size h) as [L P].
  split; [exact L|]. split.
  - intros l Hl. apply P; auto.
  - intros fuel l h0 l' Hl Hl' Hneq.
    destruct (box_split_refines max_node_size fuel l h0 Hl) as [_ [_ P']].
    apply P'; auto.
Qed.

Lemma range_up_nth (fuel : nat) :
  forall s n k i j,
    nth_error (range_up fuel s n k) i = Some j ->
    (j = s + i * k /\ j < n)%nat.
Proof.
  induction fuel as [|fuel IH]; intros s n k i j; simpl.
  - destruct i; discriminate.
  - destruct (Nat.ltb_spec s n); [|destruct i; discriminate].
    destruct i as [|i]; simpl.
    + intros [= <-]. lia.
    + intros H'. apply IH in H'. lia.
Qed.

(** The groups of [box_split]: the slice starting at every [k]-th position
    of the sorted list, each built into one child. *)
Lemma box_split_slices (points : loc) (max_size : Z) (h : heap) (fuel : nat) :
  let pts := read [] h points in
  let n := Z.of_nat (length pts) in
  let k := ceil n max_size in
  (2 <= max_size)%Z -> (max_size < n)%Z -> (length pts <= fuel)%nat ->
  exists children,
    fst (make_node points max_size (box_split fuel) h) = Ok (InnerNode children) /\
    Z.of_nat (length children) = ceil n k /\
    Forall2 (fun g c => Permutation (all_points c) g)
      (map (fun i => slice (split_sorted pts) i (i + Z.to_nat k))
           (range_up (length pts) 0 (length pts) (Z.to_nat k)))
      children.
Proof.
  intros pts n k Hmax Hn Hf.
  assert (Hl : (points < length h)%nat).
  { apply read_nonempty_lt. fold pts. intros E.
    subst n. rewrite E in Hn. simpl in Hn. lia. }
  destruct fuel as [|fuel]; [subst n; lia|].
  destruct (box_split_value_step fuel max_size pts Hmax
              (make_node_value_builds max_size Hmax fuel) Hn Hf)
    as [children [E [_ [_ [Hcount [_ [_ HF]]]]]]].
  fold n k in Hcount, HF.
  exists children.
  destruct (make_node_refines max_size _ _
              (box_split_refines max_size (S fuel)) points h Hl) as [E2 _].
  fold pts in E2. unfold make_node_value in E2.
  destruct (Z.gtb_spec (Z.of_nat (length pts)) max_size); [|subst n; lia].
  rewrite E in E2. simpl in E2.
  repeat split; auto.
  clear - HF. induction HF; simpl; constructor; auto.
Qed.

(** C4, amended: for [n > max_node_size] points the split step sorts the
    points along the widest axis of their bounding box and cuts the sorted
    list into consecutive groups of [k = ceil (n / max_node_size)] points
    each: every group but the last holds exactly [k] points and the last
    holds between 1 and [k].  The resulting inner node has [ceil (n / k)]
    children, one per group, which is at most [max_node_size]. *)
Theorem box_split_child_count (points : loc) (max_size : Z) (h : heap)
    (fuel : nat) :
  let pts := read [] h points in
  let n := Z.of_nat (length pts) in
  let k := ceil n max_size in
  let dim := split_dim pts in
  let extent := xyz (size (BoundingBox_init pts)) in
  (2 <= max_size)%Z -> (max_size < n)%Z -> (length pts <= fuel)%nat ->
  exists children groups,
    fst (make_node points max_size (box_split fuel) h)
    = Ok (InnerNode children) /\
    Z.of_nat (length children) = ceil n k /\
    (ceil n k <= max_size)%Z /\
    (dim < 3)%nat /\
    Forall (fun e => (e <= nth dim extent 0)%R) extent /\
    Permutation (split_sorted pts) pts /\
    StronglySorted
      (fun a b => (Vec3_getitem a dim <= Vec3_getitem b dim)%R)
      (split_sorted pts) /\
    concat groups = split_sorted pts /\
    Forall (fun g => 1 <= Z.of_nat (length g) <= k)%Z groups /\
    (forall i g, (S i < length groups)%nat -> nth_error groups i = Some g ->
                 Z.of_nat (length g) = k) /\
    Forall2 (fun g c => Permutation (all_points c) g) groups children.
Proof.
  intros pts n k dim extent Hmax Hn Hf.
  destruct (box_split_slices points max_size h fuel Hmax Hn Hf)
    as [children [E [Hc HF]]].
  fold pts n k in E, Hc, HF.
  pose proof (ceil_bounds n max_size Hmax Hn) as Hk. fold k in Hk.
  set (starts := range_up (length pts) 0 (length pts) (Z.to_nat k)) in *.
  set (part := fun i => slice (split_sorted pts) i (i + Z.to_nat k)) in *.
  exists children, (map part starts).
  destruct (tuple_index_max (x (size (BoundingBox_init pts)))
              (y (size (BoundingBox_init pts)))
              (z (size (BoundingBox_init pts)))) as [D1 [D2 [D3 [D4 D5]]]].
  split; [exact E|]. split; [exact Hc|].
  split; [apply (ceil_ceil_le n max_size Hmax Hn)|].
  split; [exact D1|].
  split.
  { subst extent dim. unfold split_dim, xyz. rewrite D2.
    apply Forall_cons; [exact D3|]. apply Forall_cons; [exact D4|].
    apply Forall_cons; [exact D5|]. apply Forall_nil. }
  split; [apply split_sorted_perm|].
  split; [apply list_sort_sorted|].
  split.
  { subst part starts. rewrite <- (split_sorted_length pts) at 1 2.
    rewrite concat_slices by (rewrite ?split_sorted_length; lia).
    reflexivity. }
  split.
  { apply Forall_forall. intros g Hg. apply in_map_iff in Hg.
    destruct Hg as [i [<- Hi]]. apply range_up_In in Hi.
    pose proof (slice_length (split_sorted pts) i (Z.to_nat k)) as L.
    rewrite split_sorted_length in L. subst part. simpl. lia. }
  split; [|exact HF].
  intros i g Hi Hg. rewrite length_map in Hi.
  rewrite nth_error_map in Hg.
  destruct (nth_error starts i) as [j|] eqn:Ej; [|discriminate].
  injection Hg as <-.
  destruct (nth_error starts (S i)) as [j'|] eqn:Ej';
    [|apply nth_error_None in Ej'; lia].
  apply range_up_nth in Ej, Ej'.
  subst part. unfold slice. cbv beta.
  rewrite length_firstn, length_skipn, split_sorted_length.
  simpl in Ej'. nia.
Qed.

Lemma box_split_child_count_witness :
  (2 <= 2)%Z /\ (2 < Z.of_nat (length (read [] [sample_points] 0%nat)))%Z /\
  (length (read [] [sample_points] 0%nat) <= 5)%nat /\
  exists children groups,
    fst (make_node 0 2 (box_split 5) [sample_points])
    = Ok (InnerNode children) /\
    Z.of_nat (length children)
    = ceil (Z.of_nat (length (read [] [sample_points] 0%nat)))
           (ceil (Z.of_nat (length (read [] [sample_points] 0%nat))) 2) /\
    (ceil (Z.of_nat (length (read [] [sample_points] 0%nat)))
          (ceil (Z.of_nat (length (read [] [sample_points] 0%nat))) 2) <= 2)%Z /\
    (split_dim (read [] [sample_points] 0%nat) < 3)%nat /\
    Forall (fun e =>
              (e <= nth (split_dim (read [] [sample_points] 0%nat))
                        (xyz (size (BoundingBox_init
                                      (read [] [sample_points] 0%nat)))) 0)%R)
           (xyz (size (BoundingBox_init (read [] [sample_points] 0%nat)))) /\
    Permutation (split_sorted (read [] [sample_points] 0%nat))
                (read [] [sample_points] 0%nat) /\
    StronglySorted
      (fun a b =>
         (Vec3_getitem a (split_dim (read [] [sample_points] 0%nat))
          <= Vec3_getitem b (split_dim (read [] [sample_points] 0%nat)))%R)
      (split_sorted (read [] [sample_points] 0%nat)) /\
    concat groups = split_sorted (read [] [sample_points] 0%nat) /\
    Forall (fun g =>
              1 <= Z.of_nat (length g)
              <= ceil (Z.of_nat (length (read [] [sample_points] 0%nat))) 2)%Z
           groups /\
    (forall i g, (S i < length groups)%nat -> nth_error groups i = Some g ->
                 Z.of_nat (length g)
                 = ceil (Z.of_nat (length (read [] [sample_points] 0%nat))) 2) /\
    Forall2 (fun g c => Permutation (all_points c) g) groups children.
Proof.
  split; [lia|]. split; [simpl; lia|]. split; [simpl; lia|].
  apply (box_split_child_count 0 2 [sample_points] 5);
    [lia | simpl; lia | simpl; lia].
Defined.

(** C4 as stated fails: the five points of the example with
    [max_node_size = 2] are split into groups of [ceil (5 / 2) = 3] points,
    so the inner node has 2 children and not [ceil (5 / 2) = 3]. *)
Lemma child_count_counterexample :
  exists children,
    fst (make_node 0 2 (box_split 5) [sample_points]) = Ok (InnerNode children)
    /\ Z.of_nat (length children) = 2%Z
    /\ Z.of_nat (length children) <> ceil (Z.of_nat (length sample_points)) 2.
Proof.
  destruct (box_split_groups 0 2 [sample_points] 5)
    as [children [_ [_ [E [Hc _]]]]]; try (simpl; lia).
  exists children. split; [exact E|].
  change (Z.of_nat (length children) = 2%Z) in Hc.
  split; [exact Hc|]. rewrite Hc. vm_compute. discriminate.
Qed.

(** * Further properties of the construction *)

Lemma built_inner_inv (max_size : Z) (t : Node) :
  built max_size t -> (max_size < Z.of_nat (length (all_points t)))%Z ->
  exists children, t = InnerNode children /\ children <> [] /\
                   Forall (built max_size) children.
Proof.
  intros [points H1 H2 | children H1 H2 H3] Hn.
  - simpl in Hn. lia.
  - eauto.
Qed.

(** X1: every inner node of a constructed tree has at least two and at most
    [max_node_size] children. *)
Theorem inner_node_fanout (points : loc) (max_node_size : Z) (h : heap) :
  read [] h points <> [] -> (2 <= max_node_size)%Z ->
  exists t,
    fst (RTree_init points max_node_size h) = Ok t /\
    Forall (fun node =>
              match node with
              | Leaf _ _ => True
              | Inner _ children =>
                  (2 <= Z.of_nat (length children) <= max_node_size)%Z
              end)
           (nodes (_root t)).
Proof.
  intros Hne Hmax.
  destruct (RTree_init_built points max_node_size h Hne Hmax)
    as [t [E [Hb _]]].
  exists t. split; [exact E|].
  eapply Forall_impl; [|exact (built_nodes _ _ Hb)].
  intros node [pts H1 H2 | children H1 H2 H3]; simpl; auto.
  cbv zeta in H3. destruct H3 as [Hn [Hc _]]. rewrite Hc.
  apply (ceil_ceil_le _ max_node_size Hmax Hn).
Qed.

Lemma inner_node_fanout_witness :
  read [] [sample_points] 0 <> [] /\ (2 <= 2)%Z /\
  exists t,
    fst (RTree_init 0 2 [sample_points]) = Ok t /\
    Forall (fun node =>
              match node with
              | Leaf _ _ => True
              | Inner _ children => (2 <= Z.of_nat (length children) <= 2)%Z
              end)
           (nodes (_root t)).
Proof.
  split; [discriminate|]. split; [lia|].
  apply (inner_node_fanout 0 2 [sample_points]); [discriminate | lia].
Defined.

Lemma pow2_height_children (B : nat) (children : list Node) :
  (2 <= B)%nat ->
  Forall (fun c => (2 * 2 ^ height c <= B)%nat) children ->
  (2 ^ S (fold_right (fun c h => Nat.max (height c) h) O children) <= B)%nat.
Proof.
  intros HB. induction 1 as [|c cs Hc _ IH]; simpl fold_right.
  - simpl. lia.
  - destruct (Nat.max_spec (height c)
                (fold_right (fun c h => Nat.max (height c) h) O cs))
      as [[_ ->]|[_ ->]]; [exact IH|].
    rewrite Nat.pow_succ_r'. exact Hc.
Qed.

Lemma built_height (max_size : Z) (t : Node) :
  (2 <= max_size)%Z -> built max_size t ->
  (2 ^ height t <= Nat.max 1 (length (all_points t) - 1))%nat.
Proof.
  intros Hmax.
  induction 1 as [points _ _ | children Hne HB IH H3] using built_ind'.
  - unfold LeafNode. cbn [height]. change (2 ^ 0)%nat with 1%nat.
    apply Nat.le_max_l.
  - cbv zeta in H3. destruct H3 as [Hn [_ Hs]].
    unfold InnerNode. cbn [height all_points].
    set (n := length (flat_map all_points children)) in *.
    pose proof (ceil_spec (Z.of_nat n) max_size ltac:(lia)) as Hk.
    rewrite Nat.max_r by lia.
    apply pow2_height_children; [lia|].
    apply Forall_forall. intros c Hc.
    rewrite Forall_forall in IH, Hs.
    specialize (IH c Hc). specialize (Hs c Hc). simpl in Hs.
    destruct (Nat.max_spec 1 (length (all_points c) - 1)) as [[_ E]|[_ E]];
      rewrite E in IH; nia.
Qed.

(** X2: the tree is shallow: a constructed tree over [n] points has at most
    [log2 n] levels of inner nodes, that is [2 ^ height <= n]. *)
Theorem tree_height_bound (points : loc) (max_node_size : Z) (h : heap) :
  read [] h points <> [] -> (2 <= max_node_size)%Z ->
  exists t,
    fst (RTree_init points max_node_size h) = Ok t /\
    (2 ^ height (_root t) <= length (read [] h points))%nat.
Proof.
  intros Hne Hmax.
  destruct (RTree_init_built points max_node_size h Hne Hmax)
    as [t [E [Hb Hp]]].
  exists t. split; [exact E|].
  pose proof (built_height max_node_size (_root t) Hmax Hb) as H.
  rewrite (Permutation_length Hp) in H.
  destruct (read [] h points); [easy | simpl length in *; lia].
Qed.

Lemma tree_height_bound_witness :
  read [] [sample_points] 0 <> [] /\ (2 <= 2)%Z /\
  exists t,
    fst (RTree_init 0 2 [sample_points]) = Ok t /\
    (2 ^ height (_root t) <= length (read [] [sample_points] 0))%nat.
Proof.
  split; [discriminate|]. split; [lia|].
  apply (tree_height_bound 0 2 [sample_points]); [discriminate | lia].
Defined.

Lemma StronglySorted_app_cross {A : Type} (R : A -> A -> Prop) (l1 l2 : list A) :
  StronglySorted R (l1 ++ l2) ->
  forall p q, In p l1 -> In q l2 -> R p q.
Proof.
  induction l1 as [|a l1 IH]; simpl; intros Hs p q Hp Hq; [easy|].
  inversion Hs as [|? ? Hs' Ha]; subst.
  destruct Hp as [<-|Hp].
  - rewrite Forall_forall in Ha. apply Ha. apply in_or_app. now right.
  - now apply IH.
Qed.

Lemma StronglySorted_app_tail {A : Type} (R : A -> A -> Prop) (l1 l2 : list A) :
  StronglySorted R (l1 ++ l2) -> StronglySorted R l2.
Proof.
  induction l1 as [|a l1 IH]; simpl; auto.
  intros Hs. inversion Hs; subst. auto.
Qed.

Lemma sorted_groups_cross {A : Type} (R : A -> A -> Prop) (groups : list (list A)) :
  StronglySorted R (concat groups) ->
  forall i j a b,
    (i < j)%nat -> nth_error groups i = Some a -> nth_error groups j = Some b ->
    forall p q, In p a -> In q b -> R p q.
Proof.
  induction groups as [|g gs IH]; intros Hs i j a b Hij Ha Hb p q Hp Hq.
  - destruct i; discriminate.
  - simpl in Hs. destruct j as [|j]; [lia|]. simpl in Hb.
    destruct i as [|i]; simpl in Ha.
    + injection Ha as ->.
      apply (StronglySorted_app_cross R a (concat gs) Hs); auto.
      apply in_concat. exists b. split; auto. eapply nth_error_In; eauto.
    + apply (IH (StronglySorted_app_tail R g _ Hs) i j a b); auto. lia.
Qed.

Lemma Forall2_nth_error_r {A B : Type} (P : A -> B -> Prop)
    (l : list A) (l' : list B) :
  Forall2 P l l' ->
  forall i b, nth_error l' i = Some b ->
              exists a, nth_error l i = Some a /\ P a b.
Proof.
  induction 1 as [|a b l l' Hab _ IH]; intros i c Hc.
  - destruct i; discriminate.
  - destruct i as [|i]; simpl in *.
    + injection Hc as <-. eauto.
    + eauto.
Qed.

(** X3: the children made by a split are slabs in order along the split axis:
    every point under an earlier child has a coordinate on that axis no
    greater than every point under a later child. *)
Theorem split_children_ordered (points : loc) (max_size : Z) (h : heap)
    (fuel : nat) :
  let pts := read [] h points in
  let dim := split_dim pts in
  (2 <= max_size)%Z -> (max_size < Z.of_nat (length pts))%Z ->
  (length pts <= fuel)%nat ->
  exists children,
    fst (make_node points max_size (box_split fuel) h)
    = Ok (InnerNode children) /\
    forall i j ci cj,
      (i < j)%nat ->
      nth_error children i = Some ci -> nth_error children j = Some cj ->
      forall p q, In p (all_points ci) -> In q (all_points cj) ->
                  (Vec3_getitem p dim <= Vec3_getitem q dim)%R.
Proof.
  intros pts dim Hmax Hn Hf.
  destruct (box_split_groups points max_size h fuel Hmax Hn Hf)
    as [children [groups [_ [E [_ [Hg [_ HF]]]]]]].
  exists children. split; [exact E|].
  intros i j ci cj Hij Hi Hj p q Hp Hq.
  destruct (Forall2_nth_error_r _ _ _ HF i ci Hi) as [a [Ha Pa]].
  destruct (Forall2_nth_error_r _ _ _ HF j cj Hj) as [b [Hb Pb]].
  apply (sorted_groups_cross
           (fun u v => (Vec3_getitem u dim <= Vec3_getitem v dim)%R)
           groups) with (i := i) (j := j) (a := a) (b := b); auto.
  - fold pts in Hg. rewrite Hg. apply list_sort_sorted.
  - eapply Permutation_in; eauto.
  - eapply Permutation_in; eauto.
Qed.

Lemma split_children_ordered_witness :
  (2 <= 2)%Z /\ (2 < Z.of_nat (length (read [] [sample_points] 0%nat)))%Z /\
  (length (read [] [sample_points] 0%nat) <= 5)%nat /\
  exists children,
    fst (make_node 0 2 (box_split 5) [sample_points])
    = Ok (InnerNode children) /\
    forall i j ci cj,
      (i < j)%nat ->
      nth_error children i = Some ci -> nth_error children j = Some cj ->
      forall p q, In p (all_points ci) -> In q (all_points cj) ->
                  (Vec3_getitem p (split_dim (read [] [sample_points] 0%nat))
                   <= Vec3_getitem q (split_dim (read [] [sample_points] 0%nat)))%R.
Proof.
  split; [lia|]. split; [simpl; lia|]. split; [simpl; lia|].
  apply (split_children_ordered 0 2 [sample_points] 5);
    [lia | simpl; lia | simpl; lia].
Defined.

(** X4: [make_node] works on the list it is given: when the list holds more
    than [max_size] points the call leaves it sorted along the widest axis
    (the same points, in another order); when it holds at most [max_size]
    points the store is left as it was. *)
Theorem make_node_sorts_in_place (points : loc) (max_size : Z) (h : heap)
    (fuel : nat) :
  let pts := read [] h points in
  let h' := snd (make_node points max_size (box_split fuel) h) in
  (2 <= max_size)%Z -> (length pts <= fuel)%nat -> pts <> [] ->
  ((max_size < Z.of_nat (length pts))%Z ->
   read [] h' points = split_sorted pts /\
   Permutation (read [] h' points) pts /\
   StronglySorted
     (fun a b => (Vec3_getitem a (split_dim pts)
                  <= Vec3_getitem b (split_dim pts))%R)
     (read [] h' points)) /\
  ((Z.of_nat (length pts) <= max_size)%Z -> h' = h).
Proof.
  intros pts h' Hmax Hf Hne.
  assert (Hl : (points < length h)%nat) by now apply read_nonempty_lt.
  subst h'. unfold make_node, bind, get_list. fold pts.
  split; intros Hn.
  - destruct (Z.gtb_spec (Z.of_nat (length pts)) max_size); [|lia].
    destruct fuel as [|fuel]; [lia|].
    assert (E : read [] (snd (box_split (S fuel) points max_size h)) points
                = split_sorted pts).
    { rewrite box_split_unfold. cbv zeta. fold pts.
      pose proof (ceil_bounds _ max_size Hmax Hn) as Hk.
      unfold ceil_div. destruct (Z.eqb_spec max_size 0); [lia|].
      unfold py_range.
      destruct (Z.eqb_spec (ceil (Z.of_nat (length pts)) max_size) 0); [lia|].
      destruct (Z.ltb_spec (ceil (Z.of_nat (length pts)) max_size) 0); [lia|].
      destruct (box_split_loop fuel max_size points (split_sorted pts)
                  (Z.to_nat (ceil (Z.of_nat (length pts)) max_size))
                  (make_node_refines max_size _ _
                     (box_split_refines max_size fuel))
                  (range_up (length pts) 0 (length pts)
                     (Z.to_nat (ceil (Z.of_nat (length pts)) max_size)))
                  (write h points (split_sorted pts))) as [_ [_ P]].
      - now rewrite length_write.
      - now apply read_write_same.
      - rewrite P; [now apply read_write_same | now rewrite length_write | easy]. }
    destruct (box_split (S fuel) points max_size h) as [[children|e|] h1];
      simpl in E |- *; rewrite E;
      (split; [reflexivity|]; split;
       [apply split_sorted_perm | apply list_sort_sorted]).
  - destruct (Z.gtb_spec (Z.of_nat (length pts)) max_size); [lia|].
    reflexivity.
Qed.

Lemma make_node_sorts_in_place_witness :
  (2 <= 2)%Z /\ (length (read [] [sample_points] 0%nat) <= 5)%nat /\
  read [] [sample_points] 0 <> [] /\
  ((2 < Z.of_nat (length (read [] [sample_points] 0%nat)))%Z ->
   read [] (snd (make_node 0 2 (box_split 5) [sample_points])) 0%nat
   = split_sorted (read [] [sample_points] 0%nat) /\
   Permutation
     (read [] (snd (make_node 0 2 (box_split 5) [sample_points])) 0%nat)
     (read [] [sample_points] 0%nat) /\
   StronglySorted
     (fun a b =>
        (Vec3_getitem a (split_dim (read [] [sample_points] 0%nat))
         <= Vec3_getitem b (split_dim (read [] [sample_points] 0%nat)))%R)
     (read [] (snd (make_node 0 2 (box_split 5) [sample_points])) 0%nat)) /\
  ((Z.of_nat (length (read [] [sample_points] 0%nat)) <= 2)%Z ->
   snd (make_node 0 2 (box_split 5) [sample_points]) = [sample_points]).
Proof.
  split; [lia|]. split; [simpl; lia|]. split; [discriminate|].
  apply (make_node_sorts_in_place 0 2 [sample_points] 5);
    [lia | simpl; lia | discriminate].
Defined.

Lemma make_node_value_capacity_one (fuel : nat) :
  forall pts, (2 <= length pts)%nat ->
              make_node_value pts 1 (box_split_value fuel) = OutOfFuel.
Proof.
  induction fuel as [|fuel IH]; intros pts Hn; unfold make_node_value;
    (destruct (Z.gtb_spec (Z.of_nat (length pts)) 1); [|lia]).
  - reflexivity.
  - cbn [box_split_value]. cbv zeta.
    assert (Ek : ceil_div (Z.of_nat (length pts)) 1
                 = Ok (Z.of_nat (length pts))).
    { unfold ceil_div, ceil. simpl Z.eqb. cbv iota. f_equal.
      rewrite Z.div_1_r. lia. }
    rewrite Ek. cbn [rbind].
    assert (Er : py_range (length pts) (Z.of_nat (length pts)) = Ok [0%nat]).
    { unfold py_range.
      destruct (Z.eqb_spec (Z.of_nat (length pts)) 0); [lia|].
      destruct (Z.ltb_spec (Z.of_nat (length pts)) 0); [lia|].
      rewrite Nat2Z.id. destruct (length pts) as [|m] eqn:L; [lia|].
      simpl range_up. destruct m as [|m]; [lia|]. simpl.
      destruct (Nat.ltb_spec (S (S m)) (S (S m))); [lia | reflexivity]. }
    rewrite Er. cbn [rbind mapR]. rewrite Nat2Z.id.
    assert (Es : slice (split_sorted pts) 0 (0 + length pts) = split_sorted pts).
    { unfold slice. simpl. rewrite Nat.sub_0_r.
      rewrite <- (split_sorted_length pts). apply firstn_all. }
    rewrite Es. rewrite IH by (rewrite split_sorted_length; lia).
    reflexivity.
Qed.

(** X5: with a node capacity of 1 the construction does not end: for two or
    more points [make_node] has not returned after any number of levels of
    recursion (each split makes one group, the whole list again).  This is
    what the check [max_node_size < 2] of the constructor keeps out. *)
Theorem make_node_capacity_one_diverges (points : loc) (h : heap) (fuel : nat) :
  (2 <= length (read [] h points))%nat ->
  fst (make_node points 1 (box_split fuel) h) = OutOfFuel.
Proof.
  intros Hn.
  assert (Hl : (points < length h)%nat).
  { apply read_nonempty_lt. intros E. rewrite E in Hn. simpl in Hn. lia. }
  destruct (make_node_refines 1 _ _ (box_split_refines 1 fuel) points h Hl)
    as [E _].
  rewrite E. now apply make_node_value_capacity_one.
Qed.

Lemma make_node_capacity_one_diverges_witness :
  (2 <= length (read [] [sample_points] 0%nat))%nat /\
  fst (make_node 0 1 (box_split 1000) [sample_points]) = OutOfFuel.
Proof.
  split; [simpl; lia|].
  apply (make_node_capacity_one_diverges 0 [sample_points] 1000). simpl; lia.
Defined.

(** * Further properties of the queries *)

Lemma distance_nonneg (a b : Vec3) : (0 <= distance a b)%R.
Proof. apply sqrt_pos. Qed.

(** X6: a sphere query with a negative radius yields no point, on every
    node. *)
Theorem points_in_sphere_negative_radius (node : Node) (center_ : Vec3)
    (radius : R) :
  (radius < 0)%R -> points_in_sphere node center_ radius = [].
Proof.
  intros Hr.
  induction node as [b points | b children IH] using Node_ind';
    cbn [points_in_sphere].
  - apply filter_none. intros p _. apply Rleb_false.
    eapply Rlt_le_trans; [exact Hr | apply distance_nonneg].
  - induction IH as [|c cs Hc _ IHc]; cbn [flat_map]; auto.
    rewrite Hc, IHc. now destruct (is_sphere_intersecting_bbox _ _ _ _).
Qed.

Lemma points_in_sphere_negative_radius_witness :
  (-1 < 0)%R /\
  points_in_sphere (LeafNode sample_points) (mkVec3 0 0 0) (-1) = [].
Proof.
  split; [lra|].
  apply (points_in_sphere_negative_radius
           (LeafNode sample_points) (mkVec3 0 0 0) (-1)).
  lra.
Defined.

Lemma inside_mono (b1 b2 : BoundingBox) (l1 l2 : list Vec3) (q : Vec3) :
  tight_bound b1 l1 -> tight_bound b2 l2 -> incl l1 l2 ->
  inside b1 q = true -> inside b2 q = true.
Proof.
  destruct b1 as [[lo1 hi1]|]; [|discriminate].
  intros [_ [[px0 [Hx0 Ex0]] [[px1 [Hx1 Ex1]] [[py0 [Hy0 Ey0]]
          [[py1 [Hy1 Ey1]] [[pz0 [Hz0 Ez0]] [pz1 [Hz1 Ez1]]]]]]]] T2 Hi Hq.
  apply inside_bounds in Hq. destruct Hq as [[? [? ?]] [? [? ?]]].
  destruct b2 as [[lo2 hi2]|].
  - destruct T2 as [B2 _]. apply inside_bounds.
    destruct (B2 px0 (Hi _ Hx0)) as [[? _] _].
    destruct (B2 px1 (Hi _ Hx1)) as [_ [? _]].
    destruct (B2 py0 (Hi _ Hy0)) as [[_ [? _]] _].
    destruct (B2 py1 (Hi _ Hy1)) as [_ [_ [? _]]].
    destruct (B2 pz0 (Hi _ Hz0)) as [[_ [_ ?]] _].
    destruct (B2 pz1 (Hi _ Hz1)) as [_ [_ [_ ?]]].
    unfold Vec3_le. repeat split; lra.
  - simpl in T2. subst l2. destruct (Hi _ Hx0).
Qed.

(** X8: an index over more than [max_node_size] points answers [contains]
    with false for every point outside the bounding box of the input points,
    whatever [isclose] says of it: an inner node asks only the children whose
    box holds the point. *)
Theorem contains_outside_is_false (isclose : Vec3 -> Vec3 -> bool)
    (points : loc) (max_node_size : Z) (h : heap) :
  (2 <= max_node_size)%Z ->
  (max_node_size < Z.of_nat (length (read [] h points)))%Z ->
  exists t,
    fst (RTree_init points max_node_size h) = Ok t /\
    forall q, inside (BoundingBox_init (read [] h points)) q = false ->
              RTree_contains isclose t q = false.
Proof.
  intros Hmax Hn.
  assert (Hne : read [] h points <> []).
  { intros E. rewrite E in Hn. simpl in Hn. lia. }
  destruct (RTree_init_built points max_node_size h Hne Hmax)
    as [t [E [Hb Hp]]].
  exists t. split; [exact E|].
  intros q Hq. unfold RTree_contains.
  destruct (built_inner_inv max_node_size (_root t) Hb) as [cs [Et [_ Hcs]]].
  { now rewrite (Permutation_length Hp). }
  rewrite Et in *. unfold InnerNode. cbn [contains].
  destruct (existsb _ cs) eqn:X; auto.
  apply existsb_exists in X. destruct X as [c [Hc X]].
  apply andb_true_iff in X. destruct X as [X _].
  rewrite Forall_forall in Hcs.
  assert (T : inside (BoundingBox_init (read [] h points)) q = true).
  { apply (inside_mono (bbox c) (BoundingBox_init (read [] h points))
             (all_points c) (read [] h points) q); auto.
    - eapply built_tight; eauto.
    - apply BoundingBox_init_tight.
    - intros p Hin. eapply Permutation_in; [exact Hp|].
      simpl. apply in_flat_map. eauto. }
  congruence.
Qed.

Lemma contains_outside_is_false_witness :
  (2 <= 2)%Z /\ (2 < Z.of_nat (length (read [] [sample_points] 0%nat)))%Z /\
  exists t,
    fst (RTree_init 0 2 [sample_points]) = Ok t /\
    forall q, inside (BoundingBox_init (read [] [sample_points] 0)) q = false ->
              RTree_contains (fun _ _ => true) t q = false.
Proof.
  split; [lia|]. split; [simpl; lia|].
  apply (contains_outside_is_false (fun _ _ => true) 0 2 [sample_points]);
    [lia | simpl; lia].
Defined.

(** * Further properties of the nearest-neighbour search *)

(** X11: a point returned by [nearest_neighbor] is one of the input points,
    and the index contains it. *)
Theorem nearest_neighbor_is_contained
    (point_eq point_lt isclose : Vec3 -> Vec3 -> bool)
    (points : loc) (max_node_size : Z) (h : heap) (target : Vec3) :
  (forall v, isclose v v = true) ->
  read [] h points <> [] -> (2 <= max_node_size)%Z ->
  exists t,
    fst (RTree_init points max_node_size h) = Ok t /\
    forall p,
      RTree_nearest_neighbor point_eq point_lt t target = Ok p ->
      In p (read [] h points) /\ RTree_contains isclose t p = true.
Proof.
  intros Hrefl Hne Hmax.
  destruct (RTree_init_built points max_node_size h Hne Hmax)
    as [t [E [Hb Hp]]].
  exists t. split; [exact E|].
  intros p. unfold RTree_nearest_neighbor, Node_nearest_neighbor,
    RTree_contains.
  pose proof (nearest_neighbor_spec point_eq point_lt target max_node_size
                (_root t) Hb None INF I) as S.
  destruct (_nearest_neighbor point_eq point_lt (_root t) target None INF)
    as [[[nn|] d]|e|]; try discriminate.
  intros [= ->]. simpl in S.
  destruct S as [p' [d' [[= <- <-] [_ [O _]]]]].
  destruct O as [O|[[=] _]].
  split.
  - eapply Permutation_in; eauto.
  - now apply (contains_built isclose max_node_size).
Qed.

Lemma nearest_neighbor_is_contained_witness :
  (forall v, Vec3_isclose v v = true) /\
  read [] [sample_points] 0 <> [] /\ (2 <= 2)%Z /\
  exists t,
    fst (RTree_init 0 2 [sample_points]) = Ok t /\
    forall p,
      RTree_nearest_neighbor (fun _ _ => false) (fun _ _ => false) t
        (mkVec3 4 4 0) = Ok p ->
      In p (read [] [sample_points] 0) /\
      RTree_contains Vec3_isclose t p = true.
Proof.
  split; [exact Vec3_isclose_refl|]. split; [discriminate|]. split; [lia|].
  apply (nearest_neighbor_is_contained (fun _ _ => false) (fun _ _ => false)
           Vec3_isclose 0 2 [sample_points] (mkVec3 4 4 0));
    [exact Vec3_isclose_refl | discriminate | lia].
Defined.

Lemma BoundingBox_init_constant (p : Vec3) (l : list Vec3) :
  l <> [] -> (forall q, In q l -> q = p) -> BoundingBox_init l = Some (p, p).
Proof.
  intros Hne Hall.
  pose proof (BoundingBox_init_tight l) as T.
  destruct (BoundingBox_init l) as [[lo hi]|]; simpl in T; [|contradiction].
  destruct T as [_ [[px0 [Hx0 Ex0]] [[px1 [Hx1 Ex1]] [[py0 [Hy0 Ey0]]
                 [[py1 [Hy1 Ey1]] [[pz0 [Hz0 Ez0]] [pz1 [Hz1 Ez1]]]]]]]].
  rewrite (Hall _ Hx0) in Ex0. rewrite (Hall _ Hx1) in Ex1.
  rewrite (Hall _ Hy0) in Ey0. rewrite (Hall _ Hy1) in Ey1.
  rewrite (Hall _ Hz0) in Ez0. rewrite (Hall _ Hz1) in Ez1.
  f_equal. f_equal; apply Vec3_eq; auto.
Qed.

Lemma find_closest_child_tie (target : Vec3) (b : BoundingBox)
    (c1 c2 : Node) (cs : list Node) :
  bbox c1 = b -> bbox c2 = b ->
  find_closest_child (c1 :: c2 :: cs) target = Raise TypeError.
Proof.
  intros E1 E2. unfold find_closest_child.
  cbn [length Nat.eqb enumerate_from map py_min min_from snd fst].
  rewrite E1, E2. unfold tuple_lt. cbn [fst snd]. rewrite Reqb_refl. reflexivity.
Qed.

(** X12: an index of more than [max_node_size] copies of one point cannot
    answer [nearest_neighbor]: for every target the call raises [TypeError],
    since all children of the root have the same box. *)
Theorem nearest_neighbor_of_copies_raises
    (point_eq point_lt : Vec3 -> Vec3 -> bool)
    (points : loc) (max_node_size : Z) (h : heap) (p : Vec3) :
  (2 <= max_node_size)%Z ->
  (max_node_size < Z.of_nat (length (read [] h points)))%Z ->
  (forall q, In q (read [] h points) -> q = p) ->
  exists t,
    fst (RTree_init points max_node_size h) = Ok t /\
    forall target,
      RTree_nearest_neighbor point_eq point_lt t target = Raise TypeError.
Proof.
  intros Hmax Hn Hall.
  assert (Hne : read [] h points <> []).
  { intros E. rewrite E in Hn. simpl in Hn. lia. }
  destruct (RTree_init_built points max_node_size h Hne Hmax)
    as [t [E [Hb Hp]]].
  exists t. split; [exact E|]. intros target.
  inversion Hb as [pts H1 H2 Et | cs H1 H2 H3 Et].
  { rewrite <- Et in Hp. simpl in Hp.
    rewrite (Permutation_length Hp) in H2. lia. }
  assert (Hbox : forall c, In c cs -> bbox c = Some (p, p)).
  { intros c Hc'. rewrite Forall_forall in H2.
    rewrite (built_bbox max_node_size c (H2 c Hc')).
    apply BoundingBox_init_constant.
    - eapply built_nonempty; eauto.
    - intros q Hq. apply Hall. eapply Permutation_in; [exact Hp|].
      rewrite <- Et. cbn [InnerNode all_points]. apply in_flat_map. eauto. }
  cbv zeta in H3. destruct H3 as [Hn' [Hc _]].
  pose proof (ceil_ceil_le _ max_node_size Hmax Hn') as Hk.
  rewrite <- Hc in Hk. clear Hc Hn'.
  destruct cs as [|c1 [|c2 cs]]; simpl length in Hk; try lia.
  unfold RTree_nearest_neighbor, Node_nearest_neighbor.
  rewrite <- Et. unfold InnerNode. cbn [_nearest_neighbor].
  rewrite (find_closest_child_tie target (Some (p, p))).
  - reflexivity.
  - apply Hbox. now left.
  - apply Hbox. right. now left.
Qed.

Lemma nearest_neighbor_of_copies_raises_witness :
  (2 <= 2)%Z /\
  (2 < Z.of_nat (length (read [] [repeat (mkVec3 1 2 3) 3] 0%nat)))%Z /\
  (forall q, In q (read [] [repeat (mkVec3 1 2 3) 3] 0) -> q = mkVec3 1 2 3) /\
  exists t,
    fst (RTree_init 0 2 [repeat (mkVec3 1 2 3) 3]) = Ok t /\
    forall target,
      RTree_nearest_neighbor (fun _ _ => false) (fun _ _ => false) t target
      = Raise TypeError.
Proof.
  split; [lia|]. split; [simpl; lia|].
  split; [intros q Hq; apply repeat_spec in Hq; exact Hq|].
  apply (nearest_neighbor_of_copies_raises (fun _ _ => false) (fun _ _ => false)
           0 2 [repeat (mkVec3 1 2 3) 3] (mkVec3 1 2 3));
    [lia | simpl; lia | intros q Hq; apply repeat_spec in Hq; exact Hq].
Defined.

Lemma node_min_least (rest : list (R * nat)) :
  forall cur,
    match min_from (tuple_lt Nat.eqb node_lt) cur rest with
    | Ok m => In m (cur :: rest) /\
              forall a, In a (cur :: rest) -> (fst m <= fst a)%R
    | Raise e => e = TypeError
    | OutOfFuel => False
    end.
Proof.
  induction rest as [|item rest IH]; intros cur; cbn [min_from].
  - split; [now left|]. intros a [<-|[]]. apply Rle_refl.
  - unfold tuple_lt at 1.
    destruct (Reqb (fst item) (fst cur)) eqn:E.
    + apply Reqb_true in E.
      destruct (snd item =? snd cur)%nat; [|reflexivity].
      specialize (IH cur).
      destruct (min_from _ cur rest) as [m|e|]; auto.
      destruct IH as [Hin Hmin]. split.
      * destruct Hin as [<-|Hin]; [now left | right; now right].
      * intros a [<-|[<-|Ha]].
        -- apply Hmin. now left.
        -- rewrite E. apply Hmin. now left.
        -- apply Hmin. now right.
    + destruct (Rltb (fst item) (fst cur)) eqn:L.
      * apply Rltb_true in L. specialize (IH item).
        destruct (min_from _ item rest) as [m|e|]; auto.
        destruct IH as [Hin Hmin]. split.
        -- right. exact Hin.
        -- intros a [<-|[<-|Ha]].
           ++ pose proof (Hmin item (or_introl eq_refl)). lra.
           ++ apply Hmin. now left.
           ++ apply Hmin. now right.
      * apply Rltb_false in L. specialize (IH cur).
        destruct (min_from _ cur rest) as [m|e|]; auto.
        destruct IH as [Hin Hmin]. split.
        -- destruct Hin as [<-|Hin]; [now left | right; now right].
        -- intros a [<-|[<-|Ha]].
           ++ apply Hmin. now left.
           ++ pose proof (Hmin cur (or_introl eq_refl)). lra.
           ++ apply Hmin. now right.
Qed.

Lemma enumerate_from_nth {A : Type} (items : list A) :
  forall s i a, In (i, a) (enumerate_from s items) ->
                nth_error items (i - s) = Some a.
Proof.
  induction items as [|b items IH]; intros s i a; simpl; [easy|].
  intros [[= <- <-]|H].
  - now rewrite Nat.sub_diag.
  - pose proof (enumerate_from_In items (S s) i a H) as B.
    apply IH in H. replace (i - s)%nat with (S (i - S s)) by lia. exact H.
Qed.

Lemma enumerate_from_all {A : Type} (items : list A) :
  forall s a, In a items -> exists i, In (i, a) (enumerate_from s items).
Proof.
  induction items as [|b items IH]; intros s a; simpl; [easy|].
  intros [<-|H].
  - exists s. now left.
  - destruct (IH (S s) a H) as [i Hi]. exists i. now right.
Qed.

(** X13: when [find_closest_child] returns, it returns a child whose box
    centre is no farther from the point than the centre of any other child;
    it raises [AssertionError] for no children and otherwise only the
    [TypeError] of a tie. *)
Theorem find_closest_child_is_closest (children : list Node) (point : Vec3) :
  match find_closest_child children point with
  | Ok i =>
      exists c, nth_error children i = Some c /\
                forall c', In c' children ->
                           (distance point (center (bbox c))
                            <= distance point (center (bbox c')))%R
  | Raise e => (children = [] /\ e = AssertionError) \/
               (children <> [] /\ e = TypeError)
  | OutOfFuel => False
  end.
Proof.
  unfold find_closest_child.
  destruct children as [|c0 cs]; cbn [length Nat.eqb]; [left; auto|].
  set (key := fun ic : nat * Node =>
                (distance point (center (bbox (snd ic))), fst ic)).
  change (enumerate_from 0 (c0 :: cs))
    with ((0%nat, c0) :: enumerate_from 1 cs).
  cbn [map py_min].
  pose proof (node_min_least (map key (enumerate_from 1 cs)) (key (0%nat, c0)))
    as H.
  destruct (min_from _ _ _) as [[d i]|e|]; cbn [rbind snd]; auto.
  - destruct H as [Hin Hmin].
    assert (Hin' : In (d, i) (map key (enumerate_from 0 (c0 :: cs)))) by exact Hin.
    apply in_map_iff in Hin'. destruct Hin' as [[i' c] [[= <- <-] Hic]].
    exists c. split.
    + apply enumerate_from_nth in Hic. now rewrite Nat.sub_0_r in Hic.
    + intros c' Hc'.
      destruct (enumerate_from_all (c0 :: cs) 0 c' Hc') as [j Hj].
      apply (Hmin (key (j, c'))).
      change (key (0%nat, c0) :: map key (enumerate_from 1 cs))
        with (map key (enumerate_from 0 (c0 :: cs))).
      apply in_map. exact Hj.
  - right. split; [discriminate | exact H].
Qed.

(** X14: an index over at most [max_node_size] points is a single leaf that
    holds the points in the order given: the constructor only adds the copy
    of the collection to the store and sorts nothing, the size is the number
    of points, and a box query yields its results in the order of the
    input. *)
Theorem single_leaf_index (points : loc) (max_node_size : Z) (h : heap) :
  let pts := read [] h points in
  pts <> [] -> (2 <= max_node_size)%Z ->
  (Z.of_nat (length pts) <= max_node_size)%Z ->
  exists t,
    RTree_init points max_node_size h = (Ok t, h ++ [pts]) /\
    _root t = LeafNode pts /\
    RTree_len t = length pts /\
    (forall box,
       RTree_points_in_bbox t box = filter (fun p => inside box p) pts).
Proof.
  intros pts Hne Hmax Hn.
  exists (mkRTree (LeafNode pts)). split.
  { rewrite RTree_init_unfold.
    destruct (Z.ltb_spec max_node_size 2); [lia|]. cbv zeta. fold pts.
    destruct (Nat.eqb_spec (length pts) 0) as [E|_].
    { apply length_zero_iff_nil in E. contradiction. }
    unfold make_node, bind, get_list, ret.
    pose proof (read_alloc_new [] h pts) as Rn.
    unfold alloc in Rn; simpl in Rn. rewrite Rn.
    destruct (Z.gtb_spec (Z.of_nat (length pts)) max_node_size);
      [lia | reflexivity]. }
  split; [reflexivity|]. split; reflexivity.
Qed.

Lemma single_leaf_index_witness :
  read [] [sample_points] 0 <> [] /\ (2 <= 5)%Z /\
  (Z.of_nat (length (read [] [sample_points] 0%nat)) <= 5)%Z /\
  exists t,
    RTree_init 0 5 [sample_points]
    = (Ok t, [sample_points] ++ [read [] [sample_points] 0]) /\
    _root t = LeafNode (read [] [sample_points] 0) /\
    RTree_len t = length (read [] [sample_points] 0) /\
    (forall box,
       RTree_points_in_bbox t box
       = filter (fun p => inside box p) (read [] [sample_points] 0)).
Proof.
  split; [discriminate|]. split; [lia|]. split; [simpl; lia|].
  apply (single_leaf_index 0 5 [sample_points]);
    [discriminate | lia | simpl; lia].
Defined.

(** X15: what the check [max_node_size < 2] also keeps out: called with a
    capacity of 0 or less on a non-empty list, [make_node] never builds a
    tree over the points.  It raises [ZeroDivisionError] for capacity 0;
    for a negative capacity it raises [ValueError] (a zero step of [range])
    or returns an inner node without children. *)
Theorem make_node_nonpositive_capacity (points : loc) (max_size : Z)
    (h : heap) (fuel : nat) :
  read [] h points <> [] -> (max_size <= 0)%Z ->
  let r := fst (make_node points max_size (box_split (S fuel)) h) in
  (max_size = 0%Z -> r = Raise ZeroDivisionError) /\
  ((max_size < 0)%Z -> r = Raise ValueError \/ r = Ok (InnerNode [])).
Proof.
  intros Hne Hmax r.
  assert (Hl : (points < length h)%nat) by now apply read_nonempty_lt.
  destruct (make_node_refines max_size _ _
              (box_split_refines max_size (S fuel)) points h Hl) as [E _].
  subst r. rewrite E. clear E.
  set (pts := read [] h points) in *.
  assert (Hn : (0 < Z.of_nat (length pts))%Z).
  { destruct pts; [easy | simpl length; lia]. }
  unfold make_node_value.
  destruct (Z.gtb_spec (Z.of_nat (length pts)) max_size); [|lia].
  cbn [box_split_value]. cbv zeta. unfold ceil_div.
  split.
  - intros ->. reflexivity.
  - intros Hneg. destruct (Z.eqb_spec max_size 0); [lia|]. cbn [rbind].
    assert (Hk : (ceil (Z.of_nat (length pts)) max_size <= 0)%Z).
    { unfold ceil.
      assert (0 <= - Z.of_nat (length pts) / max_size)%Z; [|lia].
      pose proof (Z.div_mod (- Z.of_nat (length pts)) max_size ltac:(lia)).
      pose proof (Z.mod_neg_bound (- Z.of_nat (length pts)) max_size Hneg).
      nia. }
    unfold py_range.
    destruct (Z.eqb_spec (ceil (Z.of_nat (length pts)) max_size) 0).
    + left. reflexivity.
    + destruct (Z.ltb_spec (ceil (Z.of_nat (length pts)) max_size) 0); [|lia].
      right. reflexivity.
Qed.

Lemma make_node_nonpositive_capacity_witness :
  read [] [sample_points] 0 <> [] /\ (0 <= 0)%Z /\
  (0%Z = 0%Z ->
   fst (make_node 0 0 (box_split 1) [sample_points])
   = Raise ZeroDivisionError) /\
  ((0 < 0)%Z ->
   fst (make_node 0 0 (box_split 1) [sample_points]) = Raise ValueError \/
   fst (make_node 0 0 (box_split 1) [sample_points]) = Ok (InnerNode [])).
Proof.
  split; [discriminate|]. split; [lia|].
  apply (make_node_nonpositive_capacity 0 0 [sample_points] 0);
    [discriminate | lia].
Defined.

Lemma sphere_test_monotone (c : Vec3) (r1 r2 : R) (ce sz : Vec3) :
  (r1 <= r2)%R ->
  is_sphere_intersecting_bbox c r1 ce sz = true ->
  is_sphere_intersecting_bbox c r2 ce sz = true.
Proof.
  intros Hr. unfold is_sphere_intersecting_bbox, Vec3_add, Vec3_mul; simpl.
  destruct (Rltb (x sz * (1 / 2) + r1) _) eqn:X1; [discriminate|].
  destruct (Rltb (y sz * (1 / 2) + r1) _) eqn:Y1; [discriminate|].
  destruct (Rltb (z sz * (1 / 2) + r1) _) eqn:Z1; [discriminate|].
  intros _. apply Rltb_false in X1, Y1, Z1.
  rewrite (proj2 (Rltb_false _ _)) by lra.
  rewrite (proj2 (Rltb_false _ _)) by lra.
  rewrite (proj2 (Rltb_false _ _)) by lra.
  reflexivity.
Qed.

(** X16: a larger sphere loses no point: on every node, each point yielded
    for a radius is yielded for every greater radius. *)
Theorem points_in_sphere_monotone (node : Node) (center_ : Vec3)
    (r1 r2 : R) :
  (r1 <= r2)%R ->
  incl (points_in_sphere node center_ r1) (points_in_sphere node center_ r2).
Proof.
  intros Hr.
  induction node as [b points | b children IH] using Node_ind';
    cbn [points_in_sphere]; intros p Hp.
  - apply filter_In in Hp. destruct Hp as [Hin Hd].
    apply filter_In. split; auto.
    apply Rleb_true in Hd. apply Rleb_true. lra.
  - apply in_flat_map in Hp. destruct Hp as [c [Hc Hp]].
    apply in_flat_map. exists c. split; auto.
    rewrite Forall_forall in IH.
    destruct (is_sphere_intersecting_bbox center_ r1 _ _) eqn:T; [|easy].
    rewrite (sphere_test_monotone _ r1 r2 _ _ Hr T). now apply IH.
Qed.

Lemma points_in_sphere_monotone_witness :
  (1 <= 2)%R /\
  incl (points_in_sphere (LeafNode sample_points) (mkVec3 0 0 0) 1)
       (points_in_sphere (LeafNode sample_points) (mkVec3 0 0 0) 2).
Proof.
  split; [lra|].
  apply (points_in_sphere_monotone (LeafNode sample_points) (mkVec3 0 0 0) 1 2).
  lra.
Defined.

(** X17: a box query with the bounding box of the input points yields every
    input point, each as often as the input holds it. *)
Theorem points_in_bbox_of_all (points : loc) (max_node_size : Z) (h : heap) :
  read [] h points <> [] -> (2 <= max_node_size)%Z ->
  exists t,
    fst (RTree_init points max_node_size h) = Ok t /\
    Permutation
      (RTree_points_in_bbox t (BoundingBox_init (read [] h points)))
      (read [] h points).
Proof.
  intros Hne Hmax.
  destruct (RTree_init_built points max_node_size h Hne Hmax)
    as [t [E [Hb Hp]]].
  exists t. split; [exact E|].
  unfold RTree_points_in_bbox.
  rewrite (points_in_bbox_built max_node_size) by assumption.
  rewrite (Permutation_filter' _ _ _ Hp).
  assert (F : forall l, (forall p, In p l ->
                inside (BoundingBox_init (read [] h points)) p = true) ->
              filter (fun p => inside (BoundingBox_init (read [] h points)) p) l
              = l).
  { induction l as [|a l IH]; intros H; simpl; auto.
    rewrite (H a (or_introl eq_refl)). f_equal. apply IH.
    intros; apply H; now right. }
  rewrite F; auto.
  intros p Hin. eapply tight_bound_inside; eauto using BoundingBox_init_tight.
Qed.

Lemma points_in_bbox_of_all_witness :
  read [] [sample_points] 0 <> [] /\ (2 <= 2)%Z /\
  exists t,
    fst (RTree_init 0 2 [sample_points]) = Ok t /\
    Permutation
      (RTree_points_in_bbox t (BoundingBox_init (read [] [sample_points] 0)))
      (read [] [sample_points] 0).
Proof.
  split; [discriminate|]. split; [lia|].
  apply (points_in_bbox_of_all 0 2 [sample_points]); [discriminate | lia].
Defined.
